(** * gocols/select: selection of rows of a columnized dataset

    A shallow embedding of [select/select.go] and of the part of
    [config] it uses, together with models of the Go standard library
    functions the program calls ([sort.Search], [sort.Sort],
    [io.ReadFull], [binary.Read], [binary.ReadUvarint],
    [binary.PutUvarint], [strconv.Atoi], [os.Stat], [os.SameFile]).

    Conventions.
    - A byte is a [Z] in [0, 256); a decompressed column stream is a
      [list Z] of bytes.  Snappy framing is below the level of the model:
      a reader yields the decompressed bytes, a writer records the bytes
      handed to it.
    - A [uint64] is a [Z] in [0, 2^64); wrap-around is written out where
      the Go code can wrap.
    - A Go function that returns [(v, err)] or panics is a function into
      [result]: [Ok v] for a normal return, [Err e] for the error value
      returned or the value the function panics with. *)

From Stdlib Require Import String Ascii.
From Stdlib Require Import ZArith List Bool Lia Arith Sorted Permutation.
From Stdlib Require DecimalString DecimalNat.
From Equations Require Import Equations.
Import ListNotations.

Local Open Scope Z_scope.

(** ** Errors and results *)

Inductive error : Type :=
| EOF                      (* io.EOF *)
| ErrUnexpectedEOF         (* io.ErrUnexpectedEOF *)
| ErrOverflow              (* binary: varint overflows a 64-bit integer *)
| ErrIndexOutOfRange       (* runtime error: index out of range *)
| ErrNotExist              (* os.Open on a missing file *)
| ErrSyntax                (* strconv.ErrSyntax *)
| ErrRange                 (* strconv.ErrRange *)
| ErrVarintNotImplemented  (* panic("varint not implemented\n") *)
| ErrTooLong               (* bufio.ErrTooLong: token too long *)
| ErrRead.                 (* an error of the Read of the underlying file *)

Inductive result (A : Type) : Type :=
| Ok (a : A)
| Err (e : error).
Arguments Ok {A} a.
Arguments Err {A} e.

Definition bind {A B : Type} (r : result A) (k : A -> result B) : result B :=
  match r with
  | Ok a => k a
  | Err e => Err e
  end.

Notation "x <- r ;; k" := (bind r (fun x => k))
  (at level 61, r at next level, right associativity).
Notation "' pat <- r ;; k" := (bind r (fun x => match x with pat => k end))
  (at level 61, pat pattern, r at next level, right associativity).

(** Case analysis that keeps the equation, for well-founded loops. *)
Definition inspect {A : Type} (x : A) : {y : A | x = y} := exist _ x eq_refl.

Definition uint64_mod : Z := 2 ^ 64.
Definition to_uint64 (z : Z) : Z := z mod uint64_mod.

(** ** sort.Search and [contains] *)

Module GoSort.

(** The midpoint of [sort.Search] on indices modelled as [nat]. *)
Definition midpoint (i j : nat) : nat := ((i + j) / 2)%nat.

(** The expression [int(uint(i+j) >> 1)] of the library on 64-bit
    integers, with the wrap-around of the sum written out; lemma
    [uint_midpoint_eq] relates it to [midpoint]. *)
Definition uint_midpoint (i j : Z) : Z := Z.shiftr ((i + j) mod 2 ^ 64) 1.

(** [sort.Search(n, f)]:
<<
    i, j := 0, n
    for i < j {
        h := int(uint(i+j) >> 1)
        if !f(h) { i = h + 1 } else { j = h }
    }
    return i
>>
    For [0 <= i <= j <= n] with [n] the length of a slice the unsigned sum
    does not wrap, and [h] is [midpoint i j].  The loop terminates because
    [j - i] decreases. *)
Equations? Search_loop (f : nat -> bool) (i j : nat) : nat by wf (j - i)%nat lt :=
  Search_loop f i j with lt_dec i j := {
    | right _ := i
    | left _ with f (midpoint i j) := {
        | false := Search_loop f (S (midpoint i j)) j
        | true := Search_loop f i (midpoint i j) } }.
Proof.
  all: assert (i <= midpoint i j < j)%nat
    by (unfold midpoint; split;
        [apply Nat.div_le_lower_bound | apply Nat.Div0.div_lt_upper_bound]; lia);
    lia.
Qed.

Definition Search (n : nat) (f : nat -> bool) : nat := Search_loop f 0 n.

(** [sort.Sort(Sl64(ids))] with [Less(i, j) = a[i] < a[j]] on [uint64]
    values.  The ascending arrangement of a list of integers is unique, so
    whichever algorithm the library runs, its result is the one of this
    insertion sort. *)
Fixpoint insert (x : Z) (l : list Z) : list Z :=
  match l with
  | [] => [x]
  | y :: l' => if x <=? y then x :: l else y :: insert x l'
  end.

Fixpoint Sort (l : list Z) : list Z :=
  match l with
  | [] => []
  | x :: l' => insert x (Sort l')
  end.

End GoSort.

(** [contains] of select.go:
<<
    f := func(i int) bool { return a[i] >= v }
    k := sort.Search(len(a), f)
    if k >= len(a) { return false }
    return a[k] == v
>>
    [a[i]] is [nth i a 0]; [Search] only probes indices below [len(a)]
    (lemma [Search_ext_below]), so the default is never read. *)
Definition contains (a : list Z) (v : Z) : bool :=
  let f := fun i : nat => nth i a 0 >=? v in
  let k := GoSort.Search (length a) f in
  if (length a <=? k)%nat then false else nth k a 0 =? v.

(** ** io.ReadFull, encoding/binary *)

Module GoIO.

(** [io.ReadFull(r, buf)] with [len(buf) = n] on a reader whose remaining
    bytes are [rdr]: the [n] bytes read and the bytes left.  With [n = 0]
    nothing is read and no error is returned; otherwise an exhausted
    reader gives [io.EOF] and a short one [io.ErrUnexpectedEOF]. *)
Definition ReadFull (rdr : list Z) (n : nat) : result (list Z * list Z) :=
  match n with
  | O => Ok ([], rdr)
  | S _ =>
      match rdr with
      | [] => Err EOF
      | _ :: _ =>
          if (length rdr <? n)%nat then Err ErrUnexpectedEOF
          else Ok (firstn n rdr, skipn n rdr)
      end
  end.

End GoIO.

Module GoBinary.

(** [binary.LittleEndian.Uint64(b)]:
    [b[0] | b[1]<<8 | ... | b[7]<<56]. *)
Definition Uint64 (b : list Z) : Z :=
  let u := fun i : nat => nth i b 0 in
  Z.lor (Z.lor (Z.lor (Z.lor (Z.lor (Z.lor (Z.lor
    (u 0%nat)
    (Z.shiftl (u 1%nat) 8))
    (Z.shiftl (u 2%nat) 16))
    (Z.shiftl (u 3%nat) 24))
    (Z.shiftl (u 4%nat) 32))
    (Z.shiftl (u 5%nat) 40))
    (Z.shiftl (u 6%nat) 48))
    (Z.shiftl (u 7%nat) 56).

(** [binary.LittleEndian.PutUint64]: the 8 bytes of [v], least significant
    first.  The program never calls it; it builds key columns for the
    statements below. *)
Definition PutUint64 (v : Z) : list Z :=
  map (fun k : Z => Z.land (Z.shiftr v (8 * k)) 255) [0; 1; 2; 3; 4; 5; 6; 7].

(** [binary.Read(r, binary.LittleEndian, &x)] for [x uint64]: 8 bytes
    through [io.ReadFull], decoded little-endian. *)
Definition Read_uint64 (rdr : list Z) : result (Z * list Z) :=
  '(bs, rdr') <- GoIO.ReadFull rdr 8 ;;
  Ok (Uint64 bs, rdr').

Definition MaxVarintLen64 : nat := 10.

(** [binary.ReadUvarint(r)]:
<<
    var x uint64; var s uint
    for i := 0; i < MaxVarintLen64; i++ {
        b, err := r.ReadByte()
        if err != nil {
            if i > 0 && err == io.EOF { err = io.ErrUnexpectedEOF }
            return x, err
        }
        if b < 0x80 {
            if i == MaxVarintLen64-1 && b > 1 { return x, errOverflow }
            return x | uint64(b)<<s, nil
        }
        x |= uint64(b&0x7f) << s
        s += 7
    }
    return x, errOverflow
>>
    [k] counts the iterations left, [i = MaxVarintLen64 - k]. *)
Fixpoint ReadUvarint_loop (k : nat) (br : list Z) (x s : Z) (i : nat)
  : result (Z * list Z) :=
  match k with
  | O => Err ErrOverflow
  | S k' =>
      match br with
      | [] => Err (if (0 <? i)%nat then ErrUnexpectedEOF else EOF)
      | b :: br' =>
          if b <? 128 then
            if (i =? 9)%nat && (1 <? b) then Err ErrOverflow
            else Ok (Z.lor x (to_uint64 (Z.shiftl b s)), br')
          else
            ReadUvarint_loop k' br'
              (Z.lor x (to_uint64 (Z.shiftl (Z.land b 127) s))) (s + 7) (S i)
      end
  end.

Definition ReadUvarint (br : list Z) : result (Z * list Z) :=
  ReadUvarint_loop MaxVarintLen64 br 0 0 0%nat.

(** [binary.PutUvarint(buf, x)]:
<<
    i := 0
    for x >= 0x80 { buf[i] = byte(x) | 0x80; x >>= 7; i++ }
    buf[i] = byte(x)
    return i + 1
>>
    [room] is [len(buf) - i]; the result is [buf[0:i+1]], the bytes
    written.  An index past the end of [buf] is a run-time panic. *)
Fixpoint PutUvarint_loop (room : nat) (x : Z) : result (list Z) :=
  match room with
  | O => Err ErrIndexOutOfRange
  | S room' =>
      if 128 <=? x then
        bs <- PutUvarint_loop room' (Z.shiftr x 7) ;;
        Ok (Z.lor (x mod 256) 128 :: bs)
      else Ok [x mod 256]
  end.

Definition PutUvarint (len_buf : nat) (x : Z) : result (list Z) :=
  PutUvarint_loop len_buf x.

End GoBinary.

(** ** The source bucket, [getix] *)

(** The column files of one source bucket: the decompressed content of
    [<vname>.bin.sz], or [None] when the file cannot be opened. *)
Definition bucket : Type := string -> option (list Z).

(** [getreader]: [os.Open] panics on a missing file. *)
Definition getreader (src : bucket) (vname : string) : result (list Z) :=
  match src vname with
  | Some rdr => Ok rdr
  | None => Err ErrNotExist
  end.

(** The loop of [getix]:
<<
    for {
        var x uint64
        err := binary.Read(rdr, binary.LittleEndian, &x)
        if err == io.EOF { break } else if err != nil { panic(err) }
        f := contains(ids, x)
        ix = append(ix, f)
        ...
    }
>>
    (the counters [m], [n] only feed the log line). *)
Equations? getix_loop (ids : list Z) (rdr : list Z) (ix : list bool)
  : result (list bool) by wf (length rdr) lt :=
  getix_loop ids rdr ix with inspect (GoBinary.Read_uint64 rdr) := {
    | exist _ (Err EOF) _ := Ok ix
    | exist _ (Err e) _ := Err e
    | exist _ (Ok (x, rdr')) Hrd := getix_loop ids rdr' (ix ++ [contains ids x]) }.
Proof.
  unfold GoBinary.Read_uint64, GoIO.ReadFull in Hrd.
  destruct rdr as [|b rdr]; [discriminate|].
  destruct (length (b :: rdr) <? 8)%nat eqn:Hlen; [discriminate|].
  cbn [bind] in Hrd. injection Hrd as _ <-.
  change (length (skipn 8 (b :: rdr)) < length (b :: rdr))%nat.
  rewrite length_skipn. simpl. lia.
Qed.

(** [getix(bn)]: the mask of bucket [bn], from the column [idvar]. *)
Definition getix (ids : list Z) (idvar : string) (src : bucket)
  : result (list bool) :=
  rdr <- getreader src idvar ;;
  getix_loop ids rdr [].

(** ** The column transcoders *)

(** The loop of [dofixedwidth] over a reader [rdr] and the bytes [wtr]
    written so far:
<<
    b := make([]byte, w)
    for _, ii := range ix {
        _, err := io.ReadFull(rdr, b)
        if err != nil { panic(err) }
        if !ii { continue }
        err = binary.Write(wtr, binary.LittleEndian, b)
        ...
    }
>>
    [binary.Write] of a byte slice hands the bytes to the writer as they
    are.  The result is the bytes written and either the reader left
    after the loop or the value of the panic. *)
Fixpoint dofixedwidth_loop (w : nat) (rdr : list Z) (ix : list bool)
  (wtr : list Z) : list Z * result (list Z) :=
  match ix with
  | [] => (wtr, Ok rdr)
  | ii :: ix' =>
      match GoIO.ReadFull rdr w with
      | Err e => (wtr, Err e)
      | Ok (b, rdr') =>
          if negb ii then dofixedwidth_loop w rdr' ix' wtr
          else dofixedwidth_loop w rdr' ix' (wtr ++ b)
      end
  end.

(** The loop of [douvarint]:
<<
    b := make([]byte, 8)
    for _, ii := range ix {
        x, err := binary.ReadUvarint(br)
        if err != nil { panic(err) }
        if !ii { continue }
        m := binary.PutUvarint(b, x)
        _, err = wtr.Write(b[0:m])
        ...
    }
>>
    [uvarint_buf_len] is the length of [b]. *)
Definition uvarint_buf_len : nat := 8.

Fixpoint douvarint_loop (br : list Z) (ix : list bool) (wtr : list Z)
  : list Z * result (list Z) :=
  match ix with
  | [] => (wtr, Ok br)
  | ii :: ix' =>
      match GoBinary.ReadUvarint br with
      | Err e => (wtr, Err e)
      | Ok (x, br') =>
          if negb ii then douvarint_loop br' ix' wtr
          else
            match GoBinary.PutUvarint uvarint_buf_len x with
            | Err e => (wtr, Err e)
            | Ok bs => douvarint_loop br' ix' (wtr ++ bs)
            end
      end
  end.

(** Files of the target bucket. *)
Inductive file : Type :=
| DtypesFile (dtypes : list (string * string))
| ColumnFile (bytes : list Z).

(** The files created in the target bucket, in order of creation. *)
Definition target : Type := list (string * file).

Definition column_path (vname : string) : string := (vname ++ ".bin.sz")%string.

(** [dofixedwidth(bn, vname, w, ix)]: [getreader] panics before the output
    file is created; after [getwriter] the deferred [wtr.Close()] and
    [fid2.Close()] leave the bytes written in the file also when the loop
    panics. *)
Definition dofixedwidth (src : bucket) (vname : string) (w : nat)
  (ix : list bool) (tgt : target) : target * result unit :=
  match getreader src vname with
  | Err e => (tgt, Err e)
  | Ok rdr =>
      let '(out, r) := dofixedwidth_loop w rdr ix [] in
      (tgt ++ [(column_path vname, ColumnFile out)], _ <- r ;; Ok tt)
  end.

(** [douvarint(bn, vname, ix)]. *)
Definition douvarint (src : bucket) (vname : string) (ix : list bool)
  (tgt : target) : target * result unit :=
  match getreader src vname with
  | Err e => (tgt, Err e)
  | Ok rdr =>
      let '(out, r) := douvarint_loop rdr ix [] in
      (tgt ++ [(column_path vname, ColumnFile out)], _ <- r ;; Ok tt)
  end.

(** ** config.DTsize, [writedtypes], [dobucket] *)

(** [config.DTsize]: a Go map; a key that is absent reads as 0. *)
Definition DTsize (dt : string) : nat :=
  if (dt =? "uint8")%string then 1
  else if (dt =? "uint16")%string then 2
  else if (dt =? "uint32")%string then 4
  else if (dt =? "uint64")%string then 8
  else if (dt =? "float32")%string then 4
  else if (dt =? "float64")%string then 8
  else 0.

Definition writedtypes (dtypes : list (string * string)) (tgt : target) : target :=
  tgt ++ [("dtypes.json"%string, DtypesFile dtypes)].

(** The loop of [dobucket] over the entries of [dtypes]:
<<
    for vn, dt := range dtypes {
        if dt == "uvarint" { douvarint(bn, vn, ix) }
        else if dt == "varint" { panic("varint not implemented\n") }
        else { w := config.DTsize[dt]; dofixedwidth(bn, vn, w, ix) }
    }
>>
    Go leaves the order of a map range unspecified: [dtypes] is the list
    of entries in the order this run visits them. *)
Fixpoint dobucket_loop (src : bucket) (ix : list bool)
  (dtypes : list (string * string)) (tgt : target) : target * result unit :=
  match dtypes with
  | [] => (tgt, Ok tt)
  | (vn, dt) :: rest =>
      if (dt =? "uvarint")%string then
        match douvarint src vn ix tgt with
        | (tgt', Ok _) => dobucket_loop src ix rest tgt'
        | (tgt', Err e) => (tgt', Err e)
        end
      else if (dt =? "varint")%string then (tgt, Err ErrVarintNotImplemented)
      else
        match dofixedwidth src vn (DTsize dt) ix tgt with
        | (tgt', Ok _) => dobucket_loop src ix rest tgt'
        | (tgt', Err e) => (tgt', Err e)
        end
  end.

(** [dobucket(bn)]: [dtypes] is what [config.ReadDtypes(bn, sourcedir)]
    returned; the target bucket starts empty. *)
Definition dobucket (ids : list Z) (idvar : string)
  (dtypes : list (string * string)) (src : bucket) : target * result unit :=
  let tgt := writedtypes dtypes [] in
  match getix ids idvar src with
  | Err e => (tgt, Err e)
  | Ok ix => dobucket_loop src ix dtypes tgt
  end.

(** ** strconv.Atoi and [getids] *)

Module GoStrconv.

(** The bytes of a Go string. *)
Definition bytes_of (s : string) : list Z :=
  map (fun c => Z.of_nat (nat_of_ascii c)) (list_ascii_of_string s).

Definition maxUint64 : Z := 2 ^ 64 - 1.

(** The digit loop of [strconv.ParseUint(s, 10, 64)]:
<<
    cutoff = maxUint64/10 + 1
    for _, c := range []byte(s) {
        switch {
        case '0' <= c && c <= '9': d = c - '0'
        ...                       // letters: d >= 10 = base
        default: return 0, syntaxError
        }
        if d >= byte(base) { return 0, syntaxError }
        if n >= cutoff { return maxVal, rangeError }
        n *= uint64(base)
        n1 := n + uint64(d)
        if n1 < n || n1 > maxVal { return maxVal, rangeError }
        n = n1
    }
    return n, nil
>> *)
Fixpoint ParseUint_loop (s : list Z) (n : Z) : result Z :=
  match s with
  | [] => Ok n
  | c :: s' =>
      if (48 <=? c) && (c <=? 57) then
        let d := c - 48 in
        if maxUint64 / 10 + 1 <=? n then Err ErrRange
        else
          let n' := to_uint64 (n * 10) in
          let n1 := to_uint64 (n' + d) in
          if (n1 <? n') || (maxUint64 <? n1) then Err ErrRange
          else ParseUint_loop s' n1
      else Err ErrSyntax
  end.

Definition ParseUint (s : list Z) : result Z :=
  match s with
  | [] => Err ErrSyntax
  | _ :: _ => ParseUint_loop s 0
  end.

(** Two's complement reading of a 64-bit pattern. *)
Definition to_int64 (z : Z) : Z := (z + 2 ^ 63) mod 2 ^ 64 - 2 ^ 63.

(** [strconv.ParseInt(s, 10, 64)]:
<<
    if len(s) == 0 { return 0, syntaxError }
    neg := false
    if s[0] == '+' { s = s[1:] } else if s[0] == '-' { neg = true; s = s[1:] }
    un, err = ParseUint(s, base, bitSize)
    if err != nil && err is not ErrRange { return 0, err }
    cutoff := uint64(1 << uint(bitSize-1))
    if !neg && un >= cutoff { return int64(cutoff - 1), rangeError }
    if neg && un > cutoff { return -int64(cutoff), rangeError }
    n := int64(un)
    if neg { n = -n }
    return n, nil
>>
    On a range error of [ParseUint], [un] is [maxUint64], above [cutoff]. *)
Definition ParseInt (s : list Z) : result Z :=
  match s with
  | [] => Err ErrSyntax
  | c :: s' =>
      let neg := c =? 45 in
      let s1 := if (c =? 43) || (c =? 45) then s' else s in
      match ParseUint s1 with
      | Err e => Err e
      | Ok un =>
          let cutoff := 2 ^ 63 in
          if negb neg && (cutoff <=? un) then Err ErrRange
          else if neg && (cutoff <? un) then Err ErrRange
          else
            let n := to_int64 un in
            Ok (if neg then to_int64 (- n) else n)
      end
  end.

(** [strconv.Atoi(s)] is [ParseInt(s, 10, 0)] converted to [int], 64 bits
    wide here (the fast path of recent Go versions for short strings
    accepts the same strings with the same values). *)
Definition Atoi (s : string) : result Z := ParseInt (bytes_of s).

End GoStrconv.

(** The loop of [getids] over the lines [bufio.Scanner] delivers
    ([scanner.Text()] of each successful [scanner.Scan()]):
<<
    for scanner.Scan() {
        id, err := strconv.Atoi(scanner.Text())
        if err != nil { panic(err) }
        ids = append(ids, uint64(id))
    }
>> *)
Fixpoint getids_loop (lines : list string) (ids : list Z) : result (list Z) :=
  match lines with
  | [] => Ok ids
  | l :: lines' =>
      id <- GoStrconv.Atoi l ;;
      getids_loop lines' (ids ++ [to_uint64 id])
  end.

(** [getids] on a file whose scan ends cleanly ([scanner.Err()] is nil)
    after delivering [lines]: the loop, then [sort.Sort(Sl64(ids))].  The
    global [ids] is empty before the call and holds the result after it.
    [getids_scan] below is the function from the bytes of the file on,
    with [os.Open], the scanner and the [scanner.Err()] panic. *)
Definition getids (lines : list string) : result (list Z) :=
  ids <- getids_loop lines [] ;;
  Ok (GoSort.Sort ids).

Module GoBufio.

(** [bufio.MaxScanTokenSize], the size the buffer of a [Scanner] grows to. *)
Definition MaxScanTokenSize : Z := 64 * 1024.

Definition newline : ascii := "010"%char.
Definition carriage_return : ascii := "013"%char.

(** [dropCR]: a line without its final carriage return, if it has one. *)
Fixpoint dropCR (l : string) : string :=
  match l with
  | EmptyString => EmptyString
  | String c EmptyString =>
      if Ascii.eqb c carriage_return then EmptyString else l
  | String c rest => String c (dropCR rest)
  end.

Definition token_too_long (cur : string) : bool :=
  MaxScanTokenSize <=? Z.of_nat (String.length cur).

(** A [bufio.Scanner] with [bufio.ScanLines] run to the end over the
    bytes [data]: the tokens [scanner.Text()] takes in turn and the error
    the scan stops with.  [cur] holds the bytes of the line being read.
    A line ends at a newline or, when it is not empty, at the end of the
    data; its final carriage return is dropped.  The scanner gives up
    with [ErrTooLong] on a line of [MaxScanTokenSize] bytes or more: its
    buffer is then full before the newline or the end of the data is
    seen. *)
Fixpoint Scan_lines (data : string) (cur : string) : list string * option error :=
  match data with
  | EmptyString =>
      match cur with
      | EmptyString => ([], None)
      | String _ _ =>
          if token_too_long cur then ([], Some ErrTooLong)
          else ([dropCR cur], None)
      end
  | String c rest =>
      if Ascii.eqb c newline then
        if token_too_long cur then ([], Some ErrTooLong)
        else
          let '(tokens, err) := Scan_lines rest EmptyString in
          (dropCR cur :: tokens, err)
      else Scan_lines rest (cur ++ String c EmptyString)
  end.

Definition Scan (data : string) : list string * option error :=
  Scan_lines data EmptyString.

End GoBufio.

(** The identifier file as [getids] finds it: absent, or the bytes its
    reads deliver and the error that ends them ([None] for the end of the
    file). *)
Definition idfile_state : Type := option (string * option error).

(** [getids(idfile)], the whole function:
<<
    fid, err := os.Open(idfile)
    if err != nil { panic(err) }
    scanner := bufio.NewScanner(fid)
    for scanner.Scan() { ... }          // getids_loop
    if err := scanner.Err(); err != nil { panic(err) }
    sort.Sort(Sl64(ids))
>>
    After a read error the scanner still delivers the lines it holds and
    then reports the error, unless a line was too long before. *)
Definition getids_scan (file : idfile_state) : result (list Z) :=
  match file with
  | None => Err ErrNotExist
  | Some (data, read_err) =>
      let '(lines, scan_err) := GoBufio.Scan data in
      ids <- getids_loop lines [] ;;
      match scan_err, read_err with
      | Some e, _ => Err e
      | None, Some e => Err e
      | None, None => Ok (GoSort.Sort ids)
      end
  end.

(** ** Preflight: [check] and the head of [main] *)

Record flags : Type := mkFlags {
  idvar : string;
  idfile : string;
  targetdir : string;
  sourcedir : string;
  replace : bool
}.

Inductive stat_error : Type :=
| NotExist         (* an error for which os.IsNotExist is true *)
| OtherStatError.  (* any other error of os.Stat *)

(** What [os.Stat] sees: for each path the identity of the file it names
    (device and inode, what [os.SameFile] compares) or an error. *)
Definition filesystem : Type := string -> nat + stat_error.

(** [os.Stat(p)]: a [FileInfo] and a nil error, or a nil [FileInfo] and an
    error. *)
Definition Stat (fs : filesystem) (p : string) : option nat * option stat_error :=
  match fs p with
  | inl fi => (Some fi, None)
  | inr e => (None, Some e)
  end.

Definition IsNotExist (err : option stat_error) : bool :=
  match err with
  | Some NotExist => true
  | _ => false
  end.

(** [os.SameFile(fi1, fi2)]: false unless both are results of [os.Stat]. *)
Definition SameFile (fi1 fi2 : option nat) : bool :=
  match fi1, fi2 with
  | Some a, Some b => (a =? b)%nat
  | _, _ => false
  end.

Inductive message : Type :=
| MsgUsage                     (* usage: select idvar idfile targetdir sourcedir *)
| MsgUseReplace (dir : string) (* Use -replace=true to overwrite existing contents of dir *)
| MsgSameDir.                  (* Cannot have targetdir equal to sourcedir *)

Inductive mutation : Type :=
| CreateFile (path : string)
| MkdirAll (path : string).

Inductive event : Type :=
| Stdout (m : message)
| Stderr (m : message)
| Mutate (op : mutation).

Definition is_mutation (e : event) : bool :=
  match e with
  | Mutate _ => true
  | _ => false
  end.

(** [check()]: the events it produces and [Some code] when it calls
    [os.Exit(code)]:
<<
    if !replace {
        _, err := os.Stat(targetdir)
        if !os.IsNotExist(err) { fmt.Printf(...); os.Exit(1) }
    }
    ts, err := os.Stat(targetdir)
    if err != nil {
        ss, err := os.Stat(sourcedir)
        if err != nil {
            if os.SameFile(ts, ss) { os.Stderr.WriteString(...); os.Exit(1) }
        }
    }
>> *)
Definition check (fs : filesystem) (fl : flags) : list event * option Z :=
  if negb (replace fl) && negb (IsNotExist (snd (Stat fs (targetdir fl)))) then
    ([Stdout (MsgUseReplace (targetdir fl))], Some 1)
  else
    let '(ts, err) := Stat fs (targetdir fl) in
    match err with
    | None => ([], None)
    | Some _ =>
        let '(ss, err') := Stat fs (sourcedir fl) in
        match err' with
        | None => ([], None)
        | Some _ =>
            if SameFile ts ss then ([Stderr MsgSameDir], Some 1)
            else ([], None)
        end
    end.

(** [main()] from [copycodes()] on:
<<
    copycodes()
    getids(idfile)
    setupTargetDir()
    for k := 0; k < conf.NumBuckets; k++ { sem <- true; go dobucket(k) }
    for k := 0; k < concurrency; k++ { sem <- true }
>>
    [codes] is the outcome of [copycodes()]; [partitions ids] is the rest
    of [main] from [setupTargetDir()] on, the directory of every
    partition and every [dobucket] included, run with the global [ids]
    as [getids] left it.  A panic of [copycodes] or of [getids] ends the
    run where it is raised. *)
Definition main_select {A : Type} (codes : result unit) (idfile : idfile_state)
  (partitions : list Z -> result A) : result A :=
  match codes with
  | Err e => Err e
  | Ok _ =>
      ids <- getids_scan idfile ;;
      partitions ids
  end.

Section Main.

(** The run after [os.MkdirAll(targetdir, 0755)]: configuration, codes,
    identifiers, buckets; its events and the exit status of the
    process. *)
Variable run : flags -> list event * Z.

(** [main()] after [flag.Parse()]:
<<
  if idvar == "" || idfile == "" || targetdir == "" || sourcedir == "" {
      os.Stderr.WriteString(msg); os.Exit(1)
  }
  check()
  setupLogger()                  // os.Create("select.log")
  os.MkdirAll(targetdir, 0755)
  ...
>> *)
Definition main (fs : filesystem) (fl : flags) : list event * Z :=
  if ((idvar fl =? "") || (idfile fl =? "") ||
      (targetdir fl =? "") || (sourcedir fl =? ""))%string
  then ([Stderr MsgUsage], 1)
  else
    match check fs fl with
    | (ev, Some code) => (ev, code)
    | (ev, None) =>
        (ev ++ [Mutate (CreateFile "select.log");
                Mutate (MkdirAll (targetdir fl))] ++ fst (run fl),
         snd (run fl))
    end.

End Main.

(** ** The scheduler: the semaphore [sem] of [main] and [dobucket] *)

Definition concurrency : nat := 20.

(** Where [main] stands in
<<
    for k := 0; k < conf.NumBuckets; k++ { sem <- true; go dobucket(k) }
    for k := 0; k < concurrency; k++ { sem <- true }
    logger.Printf("Done, exiting")
>> *)
Inductive main_pc : Type :=
| Send (k : nat)    (* at the head of the first loop, iteration k *)
| Launch (k : nat)  (* after sem <- true, before go dobucket(k) *)
| Drain (k : nat)   (* at the head of the second loop, iteration k *)
| Done.             (* past the second loop *)

(** [sem_len] is the number of values in the channel [sem], [running] the
    buckets whose [dobucket] has been launched and has not yet executed
    its deferred [<-sem], [finished] those that have. *)
Record sched : Type := mkSched {
  pc : main_pc;
  sem_len : nat;
  running : list nat;
  finished : list nat
}.

Definition sched_init : sched := mkSched (Send 0) 0 [] [].

(** One step of one thread, [N] being [conf.NumBuckets].  A send on the
    channel of capacity [concurrency] needs room, a receive needs a
    value.  [step_release] is the deferred [<-sem] of a [dobucket] that
    returns or panics. *)
Inductive step (N : nat) : sched -> sched -> Prop :=
| step_send k c r f :
    (k < N)%nat -> (c < concurrency)%nat ->
    step N (mkSched (Send k) c r f) (mkSched (Launch k) (S c) r f)
| step_launch k c r f :
    step N (mkSched (Launch k) c r f) (mkSched (Send (S k)) c (k :: r) f)
| step_loop_exit k c r f :
    (N <= k)%nat ->
    step N (mkSched (Send k) c r f) (mkSched (Drain 0) c r f)
| step_release p c r1 b r2 f :
    step N (mkSched p (S c) (r1 ++ b :: r2) f) (mkSched p c (r1 ++ r2) (b :: f))
| step_drain k c r f :
    (k < concurrency)%nat -> (c < concurrency)%nat ->
    step N (mkSched (Drain k) c r f) (mkSched (Drain (S k)) (S c) r f)
| step_done c r f :
    step N (mkSched (Drain concurrency) c r f) (mkSched Done c r f).

Inductive reachable (N : nat) : sched -> Prop :=
| reach_init : reachable N sched_init
| reach_step s s' : reachable N s -> step N s s' -> reachable N s'.

(** ** Notions the statements use *)

(** The subsequence of [xs] at the positions where the mask is true, in
    scan order. *)
Fixpoint select_by {A : Type} (ix : list bool) (xs : list A) : list A :=
  match ix, xs with
  | ii :: ix', x :: xs' =>
      if ii then x :: select_by ix' xs' else select_by ix' xs'
  | _, _ => []
  end.

(** The first [n] uvarint records of a stream, decoded with
    [binary.ReadUvarint], and the bytes after them. *)
Fixpoint read_uvarints (n : nat) (br : list Z) : result (list Z * list Z) :=
  match n with
  | O => Ok ([], br)
  | S n' =>
      '(x, br') <- GoBinary.ReadUvarint br ;;
      '(xs, rest) <- read_uvarints n' br' ;;
      Ok (x :: xs, rest)
  end.

(** What the write half of [douvarint] does with the selected values: the
    bytes written, and the panic that stopped it if one did. *)
Fixpoint put_all (xs : list Z) (wtr : list Z) : list Z * option error :=
  match xs with
  | [] => (wtr, None)
  | x :: xs' =>
      match GoBinary.PutUvarint uvarint_buf_len x with
      | Err e => (wtr, Some e)
      | Ok bs => put_all xs' (wtr ++ bs)
      end
  end.

(** The key column of the example of the specification. *)
Definition key_column_example : bucket :=
  fun vname =>
    if (vname =? "id")%string
    then Some (concat (map GoBinary.PutUint64 [1; 3; 5; 7; 7; 10]))
    else None.

(** The bucket of the examples of the specification: key column
    [1,3,5,7,7,10], a [uint32] column [10,...,60] and a [uvarint] column
    [300,1,4,128,9999,2]. *)
Definition spec_example_dtypes : list (string * string) :=
  [("id", "uint64"); ("x", "uint32"); ("u", "uvarint")]%string.

Definition spec_example_bucket : bucket :=
  fun vname =>
    if (vname =? "id")%string
    then Some (concat (map GoBinary.PutUint64 [1; 3; 5; 7; 7; 10]))
    else if (vname =? "x")%string
    then Some (concat [[10; 0; 0; 0]; [20; 0; 0; 0]; [30; 0; 0; 0];
                       [40; 0; 0; 0]; [50; 0; 0; 0]; [60; 0; 0; 0]])
    else if (vname =? "u")%string
    then Some [172; 2; 1; 4; 128; 1; 143; 78; 2]
    else None.

(** The uvarint encoding of [2^56], nine bytes. *)
Definition uvarint_2_56 : list Z := [128; 128; 128; 128; 128; 128; 128; 128; 1].

(** A bucket with a key column [id] holding the value 7 and a column [v]
    declared [varint]. *)
Definition varint_dtypes_example : list (string * string) :=
  [("id", "uint64"); ("v", "varint")]%string.

Definition varint_bucket_example : bucket :=
  fun vname =>
    if (vname =? "id")%string then Some (GoBinary.PutUint64 7)
    else if (vname =? "v")%string then Some [0]
    else None.

Definition known_fixed_tags : list string :=
  ["uint8"; "uint16"; "uint32"; "uint64"; "float32"; "float64"]%string.

(** Decimal literals.  [decimal_value] is the number a string of digits
    denotes, without any bound. *)
Definition is_digit (c : Z) : bool := (48 <=? c) && (c <=? 57).

Definition decimal_value_from (n : Z) (ds : list Z) : Z :=
  fold_left (fun n c => 10 * n + (c - 48)) ds n.

Definition decimal_value (ds : list Z) : Z := decimal_value_from 0 ds.

Definition is_digits (ds : list Z) : bool :=
  negb (length ds =? 0)%nat && forallb is_digit ds.

(** An unsigned integer literal: one or more decimal digits; it is a valid
    unsigned 64-bit literal when its value is below [2^64]. *)
Definition unsigned_literal (s : string) : bool :=
  is_digits (GoStrconv.bytes_of s).

Definition uint64_literal (s : string) : bool :=
  unsigned_literal s && (decimal_value (GoStrconv.bytes_of s) <? 2 ^ 64).

(** A signed 64-bit literal: an optional [+] or [-], one or more decimal
    digits, and a value in [[-2^63, 2^63)]; [int64_literal] is the value. *)
Definition int64_literal (s : string) : option Z :=
  let bs := GoStrconv.bytes_of s in
  let neg := match bs with c :: _ => c =? 45 | [] => false end in
  let ds := match bs with
            | c :: ds' => if (c =? 43) || (c =? 45) then ds' else bs
            | [] => bs
            end in
  if is_digits ds then
    let v := if neg then - decimal_value ds else decimal_value ds in
    if (- 2 ^ 63 <=? v) && (v <? 2 ^ 63) then Some v else None
  else None.

(** An invocation with overwriting allowed whose target and source are
    the same existing directory. *)
Definition same_dir_flags : flags :=
  mkFlags "id" "ids.txt" "data" "data" true.

Definition same_dir_fs : filesystem :=
  fun p => if (p =? "data")%string then inl 1%nat else inr NotExist.

(** Scheduler bookkeeping: the sends of [main] that no receive of a
    [dobucket] answers yet, and the buckets launched so far. *)
Definition held (p : main_pc) : nat :=
  match p with
  | Send _ => 0
  | Launch _ => 1
  | Drain k => k
  | Done => concurrency
  end.

Definition launched (N : nat) (p : main_pc) : nat :=
  match p with
  | Send k => k
  | Launch k => k
  | Drain _ => N
  | Done => N
  end.

Definition pc_in_range (N : nat) (p : main_pc) : Prop :=
  match p with
  | Send k => (k <= N)%nat
  | Launch k => (k < N)%nat
  | Drain k => (k <= concurrency)%nat
  | Done => True
  end.

Definition sched_inv (N : nat) (s : sched) : Prop :=
  sem_len s = (length (running s) + held (pc s))%nat /\
  (sem_len s <= concurrency)%nat /\
  pc_in_range N (pc s) /\
  (forall b, (b < launched N (pc s))%nat -> In b (running s) \/ In b (finished s)).

(** ** Sl64, the [sort.Interface] of the identifiers *)

(** [a[i] = x] on a slice, for [i] in range. *)
Fixpoint list_set (i : nat) (x : Z) (a : list Z) {struct a} : list Z :=
  match a, i with
  | [], _ => []
  | _ :: a', O => x :: a'
  | y :: a', S i' => y :: list_set i' x a'
  end.

(** [func (a Sl64) Len() int { return len(a) }] *)
Definition Sl64_Len (a : list Z) : nat := length a.

(** [func (a Sl64) Swap(i, j int) { a[i], a[j] = a[j], a[i] }]: both
    operands are read, then [a[i]] and [a[j]] are assigned in this order;
    an index out of range panics. *)
Definition Sl64_Swap (a : list Z) (i j : nat) : result (list Z) :=
  if (i <? length a)%nat && (j <? length a)%nat
  then Ok (list_set j (nth i a 0) (list_set i (nth j a 0) a))
  else Err ErrIndexOutOfRange.

(** [func (a Sl64) Less(i, j int) bool { return a[i] < a[j] }] *)
Definition Sl64_Less (a : list Z) (i j : nat) : result bool :=
  if (i <? length a)%nat && (j <? length a)%nat
  then Ok (nth i a 0 <? nth j a 0)
  else Err ErrIndexOutOfRange.

(** ** config.BucketPath and config.RevCodes *)

(** [fmt.Sprintf("%04d", bucket)] of [config.BucketPath], for the bucket
    numbers [0 <= bucket] the program passes: the decimal digits, padded
    with zeros on the left to four characters. *)
Definition zero_pad (width : nat) (s : string) : string :=
  (string_of_list_ascii (repeat "0"%char (width - String.length s)) ++ s)%string.

Definition Sprintf_04d (bucket : nat) : string :=
  zero_pad 4 (DecimalString.NilEmpty.string_of_uint (Nat.to_uint bucket)).

(** Reading a bucket number back from a directory name. *)
Definition bucket_of_name (s : string) : option nat :=
  option_map Nat.of_uint (DecimalString.NilEmpty.uint_of_string s).

(** A Go [map[int]string] as a function, and the assignment [m[v] = k]. *)
Definition int_map : Type := Z -> option string.

Definition int_map_empty : int_map := fun _ => None.

Definition int_map_set (m : int_map) (v : Z) (k : string) : int_map :=
  fun v' => if v' =? v then Some k else m v'.

(** [config.RevCodes(codes)]:
<<
    rcodes := make(map[int]string)
    for k, v := range codes { rcodes[v] = k }
    return rcodes
>>
    [codes] is the list of the entries of the map (its keys are distinct)
    in the order the range visits them. *)
Definition RevCodes (codes : list (string * Z)) : int_map :=
  fold_left (fun rcodes kv => int_map_set rcodes (snd kv) (fst kv))
    codes int_map_empty.

(** ** Notions of the further statements *)

(** What [dobucket] does for one entry of [dtypes], on an empty target. *)
Definition column_result (src : bucket) (ix : list bool) (col : string * string)
  : target * result unit :=
  dobucket_loop src ix [col] [].


(** The file [f] holds the rows of column [col] the mask selects: for a
    uvarint column it decodes to the selected values; for a fixed-width
    column it is the records of the column at the true positions of the
    mask, the column starting with a record for every mask entry (which
    fixes the file: lemma [column_selected_fixed_unique]). *)
Definition column_selected (src : bucket) (ix : list bool)
  (col : string * string) (f : string * file) : Prop :=
  fst f = column_path (fst col) /\
  if (snd col =? "uvarint")%string then
    exists br vals rest out,
      src (fst col) = Some br /\
      read_uvarints (length ix) br = Ok (vals, rest) /\
      snd f = ColumnFile out /\
      read_uvarints (count_occ bool_dec ix true) out = Ok (select_by ix vals, [])
  else
    exists records trailing,
      src (fst col) = Some (concat records ++ trailing) /\
      Forall (fun r => length r = DTsize (snd col)) records /\
      (length ix <= length records)%nat /\
      snd f = ColumnFile (concat (select_by ix records)).

(** The steps a run of the scheduler has left: those of [main] and one
    release for each running job. *)
Definition pc_measure (N : nat) (p : main_pc) : nat :=
  match p with
  | Send k => 3 * (N - k) + concurrency + 2
  | Launch k => 3 * (N - k) + concurrency + 1
  | Drain k => (concurrency - k) + 1
  | Done => 0
  end.

Definition sched_measure (N : nat) (s : sched) : nat :=
  (pc_measure N (pc s) + length (running s))%nat.

(** States reached in exactly [n] steps. *)
Inductive reachable_in (N : nat) : nat -> sched -> Prop :=
| reach_in_init : reachable_in N 0 sched_init
| reach_in_step n s s' :
    reachable_in N n s -> step N s s' -> reachable_in N (S n) s'.

(** The identifier a line of the identifier file stands for, once
    converted to [uint64] (0 for a line that is no literal). *)
Definition line_value (l : string) : Z :=
  to_uint64 (match int64_literal l with Some z => z | None => 0 end).

(** Two identifier files: one line holding [2^63], a valid unsigned
    64-bit literal, after a line holding 7; and one line holding [-1]. *)
Definition idfile_uint64_example : string :=
  ("7" ++ String GoBufio.newline
     ("9223372036854775808" ++ String GoBufio.newline EmptyString))%string.

Definition idfile_negative_example : string :=
  ("-1" ++ String GoBufio.newline EmptyString)%string.

(** A line of the identifier file as the scanner can deliver it
    unchanged: no newline in it, no carriage return at its end, shorter
    than the buffer of the scanner. *)
Definition scannable_line (l : string) : Prop :=
  Forall (fun c => c <> GoBufio.newline) (list_ascii_of_string l) /\
  GoBufio.dropCR l = l /\
  GoBufio.token_too_long l = false.

(** The file that holds the lines [lines], each ended by a newline. *)
Definition file_of_lines (lines : list string) : string :=
  fold_right (fun l rest => (l ++ String GoBufio.newline rest)%string)
    EmptyString lines.

(** * Properties *)

(** ** Binary search and membership *)

Lemma midpoint_bounds (i j : nat) :
  (i < j)%nat -> (i <= GoSort.midpoint i j < j)%nat.
Proof.
  intros Hij. unfold GoSort.midpoint. split.
  - apply Nat.div_le_lower_bound; lia.
  - apply Nat.Div0.div_lt_upper_bound; lia.
Qed.

(** On indices of a slice, which are below [2^63], the midpoint Go
    computes through [uint] is [midpoint]. *)
Lemma uint_midpoint_eq (i j : nat) :
  Z.of_nat i < 2 ^ 63 -> Z.of_nat j < 2 ^ 63 ->
  GoSort.uint_midpoint (Z.of_nat i) (Z.of_nat j) = Z.of_nat (GoSort.midpoint i j).
Proof.
  intros Hi Hj. unfold GoSort.uint_midpoint, GoSort.midpoint.
  change (2 ^ 63) with 9223372036854775808 in *.
  change (2 ^ 64) with 18446744073709551616.
  rewrite Z.mod_small by lia.
  rewrite Z.shiftr_div_pow2 by lia. change (2 ^ 1) with 2.
  rewrite Nat2Z.inj_div, Nat2Z.inj_add. reflexivity.
Qed.

(** The postcondition of the loop of [sort.Search], for any [f]: the
    result [k] lies in [[i, j]], [f] is false just below it unless
    [k = i], and true at it unless [k = j]. *)
Lemma Search_loop_post (f : nat -> bool) (i j : nat) :
  (i <= j)%nat ->
  (i <= GoSort.Search_loop f i j <= j)%nat /\
  ((i < GoSort.Search_loop f i j)%nat ->
     f (pred (GoSort.Search_loop f i j)) = false) /\
  ((GoSort.Search_loop f i j < j)%nat -> f (GoSort.Search_loop f i j) = true).
Proof.
  funelim (GoSort.Search_loop f i j); intros Hij.
  - lia.
  - pose proof (midpoint_bounds i j l) as Hm.
    destruct H as (Hr & Hlo & Hhi); [lia|].
    split; [lia|]. split; [exact Hlo|].
    intros Hlt.
    destruct (Nat.eq_dec (GoSort.Search_loop f i (GoSort.midpoint i j))
                (GoSort.midpoint i j)) as [-> | Hne]; [assumption|].
    apply Hhi. lia.
  - pose proof (midpoint_bounds i j l) as Hm.
    destruct H as (Hr & Hlo & Hhi); [lia|].
    split; [lia|]. split; [|exact Hhi].
    intros Hlt.
    destruct (Nat.eq_dec (GoSort.Search_loop f (S (GoSort.midpoint i j)) j)
                (S (GoSort.midpoint i j))) as [-> | Hne]; [assumption|].
    apply Hlo. lia.
Qed.

(** [sort.Search] calls [f] below [n] only: two predicates that agree
    there give the same result. *)
Lemma Search_loop_eq (f : nat -> bool) (i j : nat) :
  GoSort.Search_loop f i j =
  if lt_dec i j then
    if f (GoSort.midpoint i j) then GoSort.Search_loop f i (GoSort.midpoint i j)
    else GoSort.Search_loop f (S (GoSort.midpoint i j)) j
  else i.
Proof.
  funelim (GoSort.Search_loop f i j); rewrite ?Heq0, ?Heq; reflexivity.
Qed.

Lemma Search_loop_ext_below (f g : nat -> bool) (n i j : nat) :
  (j <= n)%nat -> (forall h, (h < n)%nat -> f h = g h) ->
  GoSort.Search_loop f i j = GoSort.Search_loop g i j.
Proof.
  intros Hj Hfg. funelim (GoSort.Search_loop f i j);
    rewrite (Search_loop_eq g i j); rewrite ?Heq0, ?Heq.
  - reflexivity.
  - pose proof (midpoint_bounds i j l) as Hm.
    rewrite <- Hfg by lia. rewrite Heq. apply H with (n := n); [lia | assumption].
  - pose proof (midpoint_bounds i j l) as Hm.
    rewrite <- Hfg by lia. rewrite Heq. apply H with (n := n); [lia | assumption].
Qed.

Lemma Search_ext_below (f g : nat -> bool) (n : nat) :
  (forall h, (h < n)%nat -> f h = g h) ->
  GoSort.Search n f = GoSort.Search n g.
Proof.
  intros Hfg. unfold GoSort.Search.
  apply Search_loop_ext_below with (n := n); [lia | assumption].
Qed.

Lemma StronglySorted_nth (a : list Z) :
  StronglySorted Z.le a ->
  forall i j, (i <= j)%nat -> (j < length a)%nat -> nth i a 0 <= nth j a 0.
Proof.
  induction 1 as [|x a Hs IH Hall]; intros i j Hij Hj; simpl in Hj; [lia|].
  destruct i as [|i], j as [|j]; simpl; try lia.
  - rewrite Forall_forall in Hall. apply Hall, nth_In. lia.
  - apply IH; lia.
Qed.

Lemma Sorted_le_nth (a : list Z) :
  Sorted Z.le a ->
  forall i j, (i <= j)%nat -> (j < length a)%nat -> nth i a 0 <= nth j a 0.
Proof.
  intros Hs. apply StronglySorted_nth, Sorted_StronglySorted; [|assumption].
  intros x y z. apply Z.le_trans.
Qed.

(** What [contains] computes, in terms of the index [sort.Search] found. *)
Lemma contains_true_iff (a : list Z) (v : Z) :
  let k := GoSort.Search (length a) (fun i : nat => nth i a 0 >=? v) in
  contains a v = true <-> (k < length a)%nat /\ nth k a 0 = v.
Proof.
  intros k. unfold contains. cbv zeta. fold k.
  destruct (Nat.leb_spec (length a) k) as [Hle | Hlt].
  - split; [discriminate | lia].
  - rewrite Z.eqb_eq. split; [intros H; split; [lia | exact H] | tauto].
Qed.

(** C3. For an ascending array [a] (duplicates allowed, possibly empty)
    and any [v], [contains a v] is true exactly when some element of [a]
    equals [v]; it is false when [v] exceeds all elements, and false on
    the empty array. *)
Theorem contains_iff_In (a : list Z) (v : Z) :
  Sorted Z.le a ->
  (contains a v = true <-> In v a) /\
  ((forall x, In x a -> x < v) -> contains a v = false) /\
  contains [] v = false.
Proof.
  intros Hs.
  pose proof (Sorted_le_nth a Hs) as Hmono.
  assert (Hiff : contains a v = true <-> In v a).
  { pose proof (contains_true_iff a v) as Hc. cbv zeta in Hc. rewrite Hc. clear Hc.
    set (f := fun i : nat => nth i a 0 >=? v).
    destruct (Search_loop_post f 0 (length a)) as (Hr & Hlo & Hhi); [lia|].
    fold (GoSort.Search (length a) f) in Hr, Hlo, Hhi.
    set (k := GoSort.Search (length a) f) in *.
    split.
    - intros [Hk Hv]. rewrite <- Hv. apply nth_In. exact Hk.
    - intros Hin. apply (In_nth _ _ 0) in Hin. destruct Hin as (m & Hm & Hv).
      assert (Hbelow : (0 < k)%nat -> nth (pred k) a 0 < v).
      { intros Hk. specialize (Hlo Hk). unfold f in Hlo.
        rewrite Z.geb_leb in Hlo. apply Z.leb_gt in Hlo. exact Hlo. }
      assert (Hk : (k < length a)%nat).
      { destruct (Nat.eq_dec k (length a)) as [Heq | Hne]; [|lia].
        assert (nth m a 0 <= nth (pred k) a 0) by (apply Hmono; lia).
        specialize (Hbelow ltac:(lia)). lia. }
      split; [exact Hk|].
      specialize (Hhi Hk). unfold f in Hhi. rewrite Z.geb_leb in Hhi.
      apply Z.leb_le in Hhi.
      destruct (Z.eq_dec (nth k a 0) v) as [Heq | Hne]; [exact Heq|].
      exfalso.
      destruct (Nat.lt_ge_cases m k) as [Hmk | Hkm].
      + assert (nth m a 0 <= nth (pred k) a 0) by (apply Hmono; lia).
        specialize (Hbelow ltac:(lia)). lia.
      + assert (nth k a 0 <= nth m a 0) by (apply Hmono; lia). lia. }
  split; [exact Hiff|]. split.
  - intros Hall. apply Bool.not_true_is_false. intros Hc.
    apply Hiff in Hc. apply Hall in Hc. lia.
  - reflexivity.
Qed.

Lemma contains_iff_In_witness :
  Sorted Z.le [3; 7; 7; 9] /\
  (contains [3; 7; 7; 9] 7 = true <-> In 7 [3; 7; 7; 9]) /\
  ((forall x, In x [3; 7; 7; 9] -> x < 7) -> contains [3; 7; 7; 9] 7 = false) /\
  contains [] 7 = false.
Proof.
  assert (Hs : Sorted Z.le [3; 7; 7; 9]).
  { repeat constructor; lia. }
  split; [exact Hs | exact (contains_iff_In [3; 7; 7; 9] 7 Hs)].
Defined.

(** ** The mask builder *)

Lemma getix_loop_eq (ids rdr : list Z) (ix : list bool) :
  getix_loop ids rdr ix =
  match GoBinary.Read_uint64 rdr with
  | Err EOF => Ok ix
  | Err e => Err e
  | Ok (x, rdr') => getix_loop ids rdr' (ix ++ [contains ids x])
  end.
Proof.
  funelim (getix_loop ids rdr ix);
    match goal with
    | E : GoBinary.Read_uint64 _ = _ |- _ => rewrite E; reflexivity
    end.
Qed.

Lemma Read_uint64_chunk (c rest : list Z) :
  length c = 8%nat ->
  GoBinary.Read_uint64 (c ++ rest) = Ok (GoBinary.Uint64 c, rest).
Proof.
  intros Hc.
  do 9 (destruct c as [|? c]; try discriminate).
  reflexivity.
Qed.

(** Any stream made of 8-byte records gives one mask entry per record. *)
Lemma getix_loop_chunks (ids : list Z) (chunks : list (list Z)) :
  Forall (fun c => length c = 8%nat) chunks ->
  forall ix,
    getix_loop ids (concat chunks) ix =
    Ok (ix ++ map (fun c => contains ids (GoBinary.Uint64 c)) chunks).
Proof.
  induction 1 as [|c chunks Hc _ IH]; intros ix; rewrite getix_loop_eq.
  - simpl. rewrite app_nil_r. reflexivity.
  - simpl concat. rewrite Read_uint64_chunk by assumption.
    rewrite IH. simpl. rewrite <- app_assoc. reflexivity.
Qed.

Lemma testbit_byte (v k n : Z) :
  0 <= k -> 0 <= n ->
  Z.testbit (Z.shiftl (Z.land (Z.shiftr v k) 255) k) n =
  Z.testbit v n && (k <=? n) && (n <? k + 8).
Proof.
  intros Hk Hn. rewrite Z.shiftl_spec by lia.
  destruct (Z.leb_spec k n) as [Hle | Hlt].
  - rewrite Z.land_spec, Z.shiftr_spec by lia.
    change 255 with (Z.ones 8). rewrite Z.testbit_ones_nonneg by lia.
    replace (n - k + k) with n by lia.
    destruct (Z.ltb_spec (n - k) 8), (Z.ltb_spec n (k + 8)); try lia;
      rewrite ?andb_true_r, ?andb_false_r; reflexivity.
  - rewrite Z.testbit_neg_r by lia.
    rewrite andb_false_r. reflexivity.
Qed.

Lemma testbit_above_uint64 (v n : Z) :
  0 <= v < 2 ^ 64 -> 64 <= n -> Z.testbit v n = false.
Proof.
  intros Hv Hn.
  destruct (Z.eq_dec v 0) as [-> | Hnz]; [apply Z.bits_0|].
  apply Z.bits_above_log2; [lia|].
  assert (Z.log2 v < 64) by (apply Z.log2_lt_pow2; lia). lia.
Qed.

(** Decoding the little-endian bytes of a [uint64] gives it back. *)
Lemma Uint64_PutUint64 (v : Z) :
  0 <= v < 2 ^ 64 -> GoBinary.Uint64 (GoBinary.PutUint64 v) = v.
Proof.
  intros Hv. unfold GoBinary.Uint64, GoBinary.PutUint64. cbn [map nth].
  rewrite <- (Z.shiftl_0_r (Z.land (Z.shiftr v (8 * 0)) 255)).
  change (8 * 0) with 0. change (8 * 1) with 8. change (8 * 2) with 16.
  change (8 * 3) with 24. change (8 * 4) with 32. change (8 * 5) with 40.
  change (8 * 6) with 48. change (8 * 7) with 56.
  apply Z.bits_inj'. intros n Hn.
  rewrite !Z.lor_spec, !testbit_byte by lia.
  destruct (Z.testbit v n) eqn:Hb; cbn [andb].
  - assert (n < 64).
    { destruct (Z.lt_ge_cases n 64) as [|Hge]; [assumption|].
      rewrite testbit_above_uint64 in Hb by assumption. discriminate. }
    assert (Hcase : n < 8 \/ 8 <= n < 16 \/ 16 <= n < 24 \/ 24 <= n < 32 \/
                    32 <= n < 40 \/ 40 <= n < 48 \/ 48 <= n < 56 \/ 56 <= n < 64)
      by lia.
    repeat match goal with
           | |- context [?a <=? ?b] => destruct (Z.leb_spec a b); try lia
           | |- context [?a <? ?b] => destruct (Z.ltb_spec a b); try lia
           end; reflexivity.
  - reflexivity.
Qed.

Lemma Forall_length_PutUint64 (vs : list Z) :
  Forall (fun c => length c = 8%nat) (map GoBinary.PutUint64 vs).
Proof.
  apply Forall_forall. intros c Hc. apply in_map_iff in Hc.
  destruct Hc as (v & <- & _). reflexivity.
Qed.

(** C2. When the key column is the concatenation of the 8-byte
    little-endian encodings of the values [vs], [getix] returns a mask
    with one entry per value, the i-th being [contains ids] of the i-th
    value: the end of the stream ends the loop without error, and the
    declared type tag of the column plays no part ([getix] does not read
    it). *)
Theorem getix_mask (ids : list Z) (idv : string) (src : bucket) (vs : list Z) :
  Forall (fun v => 0 <= v < 2 ^ 64) vs ->
  src idv = Some (concat (map GoBinary.PutUint64 vs)) ->
  getix ids idv src = Ok (map (contains ids) vs) /\
  length (map (contains ids) vs) = length vs.
Proof.
  intros Hvs Hsrc. split; [|apply length_map].
  unfold getix, getreader. rewrite Hsrc. cbn [bind].
  rewrite getix_loop_chunks by apply Forall_length_PutUint64.
  cbn [app]. rewrite map_map. f_equal.
  apply map_ext_in. intros v Hv.
  rewrite Forall_forall in Hvs. rewrite Uint64_PutUint64 by auto. reflexivity.
Qed.

Lemma getix_mask_witness :
  getix [3; 7; 9] "id" key_column_example =
    Ok [false; true; false; true; true; false] /\
  length [false; true; false; true; true; false] = 6%nat.
Proof.
  apply (getix_mask [3; 7; 9] "id" key_column_example [1; 3; 5; 7; 7; 10]).
  - repeat constructor; lia.
  - reflexivity.
Defined.

(** ** The fixed-width transcoder *)

Lemma ReadFull_record (r rest : list Z) :
  GoIO.ReadFull (r ++ rest) (length r) = Ok (r, rest).
Proof.
  destruct r as [|b r]; [reflexivity|].
  assert (Hlt : (length ((b :: r) ++ rest) <? length (b :: r))%nat = false)
    by (apply Nat.ltb_ge; rewrite length_app; lia).
  assert (Hf : firstn (length (b :: r)) ((b :: r) ++ rest) = b :: r)
    by (rewrite firstn_app, Nat.sub_diag, firstn_all, firstn_O; apply app_nil_r).
  assert (Hs : skipn (length (b :: r)) ((b :: r) ++ rest) = rest)
    by (rewrite skipn_app, Nat.sub_diag, skipn_all; reflexivity).
  unfold GoIO.ReadFull. cbn [length app] in *. rewrite Hlt, Hf, Hs. reflexivity.
Qed.

(** On a stream that starts with at least as many [w]-byte records as
    the mask has entries, the loop writes the selected records in scan
    order and leaves the reader after the last record it visited. *)
Lemma dofixedwidth_loop_records (w : nat) (records : list (list Z))
  (trailing : list Z) :
  Forall (fun r => length r = w) records ->
  forall ix wtr,
    (length ix <= length records)%nat ->
    dofixedwidth_loop w (concat records ++ trailing) ix wtr =
    (wtr ++ concat (select_by ix records),
     Ok (concat (skipn (length ix) records) ++ trailing)).
Proof.
  induction 1 as [|r records Hr _ IH]; intros ix wtr Hlen.
  - destruct ix; [|simpl in Hlen; lia]. simpl. rewrite app_nil_r. reflexivity.
  - destruct ix as [|ii ix].
    + simpl. rewrite app_nil_r. reflexivity.
    + simpl in Hlen. cbn [dofixedwidth_loop concat].
      rewrite <- app_assoc. rewrite <- Hr at 1. rewrite ReadFull_record.
      destruct ii; cbn [negb select_by length skipn concat].
      * rewrite IH by lia. rewrite app_assoc. reflexivity.
      * apply IH. lia.
Qed.

Lemma length_select_by {A : Type} (ix : list bool) (xs : list A) :
  (length ix <= length xs)%nat ->
  length (select_by ix xs) = count_occ bool_dec ix true.
Proof.
  revert xs. induction ix as [|ii ix IH]; intros xs Hlen; [reflexivity|].
  destruct xs as [|x xs]; simpl in Hlen; [lia|].
  destruct ii; simpl; rewrite IH by lia; reflexivity.
Qed.

(** The fixed-width half of the selection property: output records are
    the input records at the true positions of the mask, as many as the
    mask has true entries. *)
Lemma dofixedwidth_selects (w : nat) (records : list (list Z))
  (trailing : list Z) (ix : list bool) :
  Forall (fun r => length r = w) records ->
  (length ix <= length records)%nat ->
  exists rest,
    dofixedwidth_loop w (concat records ++ trailing) ix [] =
      (concat (select_by ix records), Ok rest) /\
    length (select_by ix records) = count_occ bool_dec ix true.
Proof.
  intros Hrec Hlen. eexists. split.
  - rewrite dofixedwidth_loop_records by assumption. reflexivity.
  - apply length_select_by. assumption.
Qed.

Example dofixedwidth_uint32_example :
  dofixedwidth_loop 4
    (concat [[10; 0; 0; 0]; [20; 0; 0; 0]; [30; 0; 0; 0];
             [40; 0; 0; 0]; [50; 0; 0; 0]; [60; 0; 0; 0]])
    [false; true; false; true; true; false] [] =
  (concat [[20; 0; 0; 0]; [40; 0; 0; 0]; [50; 0; 0; 0]], Ok []).
Proof. reflexivity. Qed.

(** ** Uvarint decoding and encoding *)

Lemma lor_128_ge (a : Z) : 0 <= a -> 128 <= Z.lor a 128.
Proof.
  intros Ha.
  pose proof (Z.log2_lor a 128 Ha ltac:(lia)) as Hl.
  change (Z.log2 128) with 7 in Hl.
  assert (Hnn : 0 <= Z.lor a 128) by (apply Z.lor_nonneg; lia).
  destruct (Z.eq_dec (Z.lor a 128) 0) as [E | E].
  - rewrite E in Hl. change (Z.log2 0) with 0 in Hl. lia.
  - change 128 with (2 ^ 7) at 1. apply Z.log2_le_pow2; lia.
Qed.

Lemma land_lor_128_127 (x : Z) :
  Z.land (Z.lor (x mod 256) 128) 127 = x mod 128.
Proof.
  rewrite Z.land_lor_distr_l.
  change (Z.land 128 127) with 0. rewrite Z.lor_0_r.
  change 127 with (Z.ones 7). rewrite Z.land_ones by lia.
  change (2 ^ 7) with 128.
  pose proof (Z.mod_pos_bound x 256 ltac:(lia)).
  pose proof (Z.div_mod x 256 ltac:(lia)).
  pose proof (Z.div_mod (x mod 256) 128 ltac:(lia)).
  pose proof (Z.mod_pos_bound (x mod 256) 128 ltac:(lia)).
  apply Z.mod_unique with (q := 2 * (x / 256) + (x mod 256) / 128); lia.
Qed.

Lemma lor_split7 (x : Z) :
  Z.lor (x mod 128) (Z.shiftl (Z.shiftr x 7) 7) = x.
Proof.
  change 128 with (2 ^ 7). rewrite <- Z.land_ones by lia.
  apply Z.bits_inj'. intros n Hn.
  rewrite Z.lor_spec, Z.land_spec, Z.shiftl_spec, Z.testbit_ones_nonneg by lia.
  destruct (Z.ltb_spec n 7) as [Hlt | Hge].
  - rewrite (Z.testbit_neg_r _ (n - 7)) by lia.
    rewrite andb_true_r, orb_false_r. reflexivity.
  - rewrite Z.shiftr_spec by lia. replace (n - 7 + 7) with n by lia.
    rewrite andb_false_r. reflexivity.
Qed.

Lemma to_uint64_small (z : Z) : 0 <= z < 2 ^ 64 -> to_uint64 z = z.
Proof. intros Hz. unfold to_uint64, uint64_mod. apply Z.mod_small. exact Hz. Qed.

Lemma shiftl_bound (x s n : Z) :
  0 <= s -> s <= n -> 0 <= x < 2 ^ (n - s) -> 0 <= Z.shiftl x s < 2 ^ n.
Proof.
  intros Hs Hsn Hx. rewrite Z.shiftl_mul_pow2 by lia.
  replace (2 ^ n) with (2 ^ (n - s) * 2 ^ s)
    by (rewrite <- Z.pow_add_r by lia; f_equal; lia).
  assert (0 < 2 ^ s) by (apply Z.pow_pos_nonneg; lia).
  nia.
Qed.

Lemma pow2_neg_exp (x e : Z) : 0 <= x < 2 ^ e -> 0 <= e.
Proof.
  intros Hx. destruct (Z.lt_ge_cases e 0) as [Hneg | Hnn]; [|assumption].
  rewrite Z.pow_neg_r in Hx by assumption. lia.
Qed.

(** A value [binary.PutUvarint] encodes without panic decodes to itself
    with [binary.ReadUvarint], which then stands right after the
    encoding.  The statement is the loop invariant: [acc] and [s] are
    the accumulator and shift on entry of iteration [i]. *)
Lemma ReadUvarint_loop_PutUvarint (room : nat) :
  forall (x : Z) (bs rest : list Z) (k i : nat) (acc s : Z),
    GoBinary.PutUvarint_loop room x = Ok bs ->
    s = 7 * Z.of_nat i ->
    (k + i = 10)%nat ->
    0 <= x < 2 ^ (64 - s) ->
    GoBinary.ReadUvarint_loop k (bs ++ rest) acc s i =
    Ok (Z.lor acc (Z.shiftl x s), rest).
Proof.
  induction room as [|room IH]; intros x bs rest k i acc s Hput Hs Hk Hx;
    [discriminate|].
  pose proof (pow2_neg_exp _ _ Hx) as He.
  cbn [GoBinary.PutUvarint_loop] in Hput.
  destruct (Z.leb_spec 128 x) as [Hbig | Hsmall].
  - destruct (GoBinary.PutUvarint_loop room (Z.shiftr x 7)) as [bs' | e] eqn:Hrec;
      [|discriminate].
    cbn [bind] in Hput. injection Hput as <-.
    assert (Hs57 : s <= 56).
    { destruct (Z.le_gt_cases s 56) as [|Hgt]; [assumption|].
      assert (2 ^ (64 - s) <= 2 ^ 7) by (apply Z.pow_le_mono_r; lia).
      change (2 ^ 7) with 128 in *. lia. }
    destruct k as [|k]; [lia|].
    cbn [GoBinary.ReadUvarint_loop app].
    pose proof (Z.mod_pos_bound x 256 ltac:(lia)) as Hb.
    pose proof (lor_128_ge (x mod 256) ltac:(lia)) as Hhi.
    replace (Z.lor (x mod 256) 128 <? 128) with false
      by (symmetry; apply Z.ltb_ge; exact Hhi).
    rewrite land_lor_128_127.
    pose proof (Z.mod_pos_bound x 128 ltac:(lia)) as Hlow.
    rewrite to_uint64_small.
    2:{ apply shiftl_bound; [lia | lia |].
        split; [lia|].
        apply Z.lt_le_trans with (2 ^ 7); [change (2 ^ 7) with 128; lia|].
        apply Z.pow_le_mono_r; lia. }
    rewrite (IH (Z.shiftr x 7) bs' rest k (S i) _ (s + 7) Hrec); try lia.
    + f_equal. f_equal. rewrite <- Z.lor_assoc. f_equal.
      replace (s + 7) with (7 + s) by lia.
      rewrite <- Z.shiftl_shiftl by lia.
      rewrite <- Z.shiftl_lor. rewrite lor_split7. reflexivity.
    + rewrite Z.shiftr_div_pow2 by lia. change (2 ^ 7) with 128.
      split; [apply Z.div_pos; lia|].
      apply Z.div_lt_upper_bound; [lia|].
      replace (64 - s) with (7 + (64 - (s + 7))) in Hx by lia.
      rewrite Z.pow_add_r in Hx by lia. change (2 ^ 7) with 128 in Hx. lia.
  - injection Hput as <-.
    rewrite (Z.mod_small x 256) by lia.
    destruct k as [|k]; [lia|].
    cbn [GoBinary.ReadUvarint_loop app].
    replace (x <? 128) with true by (symmetry; apply Z.ltb_lt; lia).
    replace ((i =? 9)%nat && (1 <? x)) with false.
    + rewrite to_uint64_small; [reflexivity|].
      apply shiftl_bound; lia.
    + symmetry. apply andb_false_iff.
      destruct (Nat.eqb_spec i 9) as [-> | Hne]; [right | left; reflexivity].
      apply Z.ltb_ge. subst s. change (2 ^ (64 - 7 * Z.of_nat 9)) with 2 in Hx. lia.
Qed.

Lemma ReadUvarint_PutUvarint (room : nat) (x : Z) (bs rest : list Z) :
  GoBinary.PutUvarint room x = Ok bs ->
  0 <= x < 2 ^ 64 ->
  GoBinary.ReadUvarint (bs ++ rest) = Ok (x, rest).
Proof.
  intros Hput Hx. unfold GoBinary.ReadUvarint, GoBinary.MaxVarintLen64.
  rewrite (ReadUvarint_loop_PutUvarint room x bs rest 10 0 0 0 Hput);
    [|reflexivity | reflexivity | exact Hx].
  rewrite Z.shiftl_0_r. reflexivity.
Qed.

(** [binary.PutUvarint] fits [x] in a non-empty buffer of [room] bytes
    exactly when [x < 2^(7 * room)]; on larger values it indexes past the
    buffer. *)
Lemma PutUvarint_loop_fits (room : nat) :
  forall x, (0 < room)%nat -> 0 <= x < 2 ^ (7 * Z.of_nat room) ->
            exists bs, GoBinary.PutUvarint_loop room x = Ok bs.
Proof.
  induction room as [|room IH]; intros x Hroom Hx; [lia|].
  cbn [GoBinary.PutUvarint_loop].
  destruct (Z.leb_spec 128 x) as [Hbig | Hsmall]; [|eexists; reflexivity].
  replace (7 * Z.of_nat (S room)) with (7 + 7 * Z.of_nat room) in Hx by lia.
  rewrite Z.pow_add_r in Hx by lia. change (2 ^ 7) with 128 in Hx.
  destruct room as [|room'].
  - change (2 ^ (7 * Z.of_nat 0)) with 1 in Hx. lia.
  - destruct (IH (Z.shiftr x 7)) as (bs & ->); [lia | | eexists; reflexivity].
    rewrite Z.shiftr_div_pow2 by lia. change (2 ^ 7) with 128.
    split; [apply Z.div_pos; lia|].
    apply Z.div_lt_upper_bound; lia.
Qed.

Lemma PutUvarint_loop_overflows (room : nat) :
  forall x, 2 ^ (7 * Z.of_nat room) <= x ->
            GoBinary.PutUvarint_loop room x = Err ErrIndexOutOfRange.
Proof.
  induction room as [|room IH]; intros x Hx; [reflexivity|].
  cbn [GoBinary.PutUvarint_loop].
  replace (7 * Z.of_nat (S room)) with (7 + 7 * Z.of_nat room) in Hx by lia.
  rewrite Z.pow_add_r in Hx by lia. change (2 ^ 7) with 128 in Hx.
  assert (0 < 2 ^ (7 * Z.of_nat room)) by (apply Z.pow_pos_nonneg; lia).
  replace (128 <=? x) with true by (symmetry; apply Z.leb_le; nia).
  rewrite IH; [reflexivity|].
  rewrite Z.shiftr_div_pow2 by lia. change (2 ^ 7) with 128.
  apply Z.div_le_lower_bound; lia.
Qed.

Lemma lor_uint64 (a b : Z) :
  0 <= a < 2 ^ 64 -> 0 <= b < 2 ^ 64 -> 0 <= Z.lor a b < 2 ^ 64.
Proof.
  intros Ha Hb.
  assert (Hnn : 0 <= Z.lor a b) by (apply Z.lor_nonneg; lia).
  split; [exact Hnn|].
  destruct (Z.eq_dec (Z.lor a b) 0) as [-> | Hnz]; [lia|].
  apply Z.log2_lt_pow2; [lia|].
  rewrite Z.log2_lor by lia.
  assert (Hlog : forall c, 0 <= c < 2 ^ 64 -> Z.log2 c < 64).
  { intros c Hc. destruct (Z.eq_dec c 0) as [-> | Hc0]; [reflexivity|].
    apply Z.log2_lt_pow2; lia. }
  pose proof (Hlog a Ha). pose proof (Hlog b Hb). lia.
Qed.

Lemma to_uint64_range (z : Z) : 0 <= to_uint64 z < 2 ^ 64.
Proof. unfold to_uint64, uint64_mod. apply Z.mod_pos_bound. lia. Qed.

(** [binary.ReadUvarint] returns a [uint64]. *)
Lemma ReadUvarint_loop_range (k : nat) :
  forall br acc s i x rest,
    0 <= acc < 2 ^ 64 ->
    GoBinary.ReadUvarint_loop k br acc s i = Ok (x, rest) ->
    0 <= x < 2 ^ 64.
Proof.
  induction k as [|k IH]; intros br acc s i x rest Hacc Hrd; [discriminate|].
  cbn [GoBinary.ReadUvarint_loop] in Hrd.
  destruct br as [|b br]; [discriminate|].
  destruct (b <? 128).
  - destruct ((i =? 9)%nat && (1 <? b)); [discriminate|].
    injection Hrd as <- _. apply lor_uint64; [exact Hacc | apply to_uint64_range].
  - eapply IH; [|exact Hrd]. apply lor_uint64; [exact Hacc | apply to_uint64_range].
Qed.

Lemma ReadUvarint_range (br : list Z) (x : Z) (rest : list Z) :
  GoBinary.ReadUvarint br = Ok (x, rest) -> 0 <= x < 2 ^ 64.
Proof.
  apply ReadUvarint_loop_range. lia.
Qed.

(** [binary.ReadUvarint] looks at the bytes of one record only. *)
Lemma ReadUvarint_loop_app (k : nat) :
  forall br acc s i x rest t,
    GoBinary.ReadUvarint_loop k br acc s i = Ok (x, rest) ->
    GoBinary.ReadUvarint_loop k (br ++ t) acc s i = Ok (x, rest ++ t).
Proof.
  induction k as [|k IH]; intros br acc s i x rest t Hrd; [discriminate|].
  destruct br as [|b br]; [discriminate|].
  cbn [GoBinary.ReadUvarint_loop app] in *.
  destruct (b <? 128).
  - destruct ((i =? 9)%nat && (1 <? b)); [discriminate|].
    injection Hrd as <- <-. reflexivity.
  - apply IH. exact Hrd.
Qed.

Lemma read_uvarints_app (n : nat) :
  forall br vals rest t,
    read_uvarints n br = Ok (vals, rest) ->
    read_uvarints n (br ++ t) = Ok (vals, rest ++ t).
Proof.
  induction n as [|n IH]; intros br vals rest t Hrd.
  - injection Hrd as <- <-. reflexivity.
  - cbn [read_uvarints] in *.
    destruct (GoBinary.ReadUvarint br) as [[x br'] | e] eqn:Hx; [|discriminate].
    unfold GoBinary.ReadUvarint in *.
    rewrite (ReadUvarint_loop_app _ _ _ _ _ _ _ t Hx).
    cbn [bind] in *.
    destruct (read_uvarints n br') as [[xs rest'] | e] eqn:Hxs; [|discriminate].
    rewrite (IH _ _ _ t Hxs). cbn [bind] in *.
    injection Hrd as <- <-. reflexivity.
Qed.

Lemma read_uvarints_length (n : nat) :
  forall br vals rest,
    read_uvarints n br = Ok (vals, rest) ->
    length vals = n /\ Forall (fun v => 0 <= v < 2 ^ 64) vals.
Proof.
  induction n as [|n IH]; intros br vals rest Hrd.
  - injection Hrd as <- _. split; [reflexivity | constructor].
  - cbn [read_uvarints] in Hrd.
    destruct (GoBinary.ReadUvarint br) as [[x br'] | e] eqn:Hx; [|discriminate].
    cbn [bind] in Hrd.
    destruct (read_uvarints n br') as [[xs rest'] | e] eqn:Hxs; [|discriminate].
    cbn [bind] in Hrd. injection Hrd as <- _.
    destruct (IH _ _ _ Hxs) as [Hlen Hall].
    split; [simpl; congruence|].
    constructor; [eapply ReadUvarint_range; exact Hx | exact Hall].
Qed.

(** The loop of [douvarint] on a stream that starts with one record per
    mask entry: the read half always succeeds, and what is written, and
    whether a panic stops the loop, is decided by the selected values
    alone. *)
Lemma douvarint_loop_put_all (ix : list bool) :
  forall br wtr vals rest,
    read_uvarints (length ix) br = Ok (vals, rest) ->
    douvarint_loop br ix wtr =
    (fst (put_all (select_by ix vals) wtr),
     match snd (put_all (select_by ix vals) wtr) with
     | None => Ok rest
     | Some e => Err e
     end).
Proof.
  induction ix as [|ii ix IH]; intros br wtr vals rest Hrd.
  - injection Hrd as <- <-. reflexivity.
  - cbn [length read_uvarints] in Hrd.
    cbn [douvarint_loop].
    destruct (GoBinary.ReadUvarint br) as [[x br'] | e] eqn:Hx; [|discriminate].
    cbn [bind] in Hrd.
    destruct (read_uvarints (length ix) br') as [[xs rest'] | e] eqn:Hxs;
      [|discriminate].
    cbn [bind] in Hrd. injection Hrd as <- <-.
    destruct ii; cbn [negb select_by put_all].
    + destruct (GoBinary.PutUvarint uvarint_buf_len x) as [bs | e]; [|reflexivity].
      apply IH. exact Hxs.
    + apply IH. exact Hxs.
Qed.

(** Values below [2^56] are written without panic, and the bytes written
    decode to the same values. *)
Lemma put_all_small (xs : list Z) :
  Forall (fun v => 0 <= v < 2 ^ 56) xs ->
  forall wtr, exists out,
    put_all xs wtr = (wtr ++ out, None) /\
    forall t, read_uvarints (length xs) (out ++ t) = Ok (xs, t).
Proof.
  induction 1 as [|x xs Hx _ IH]; intros wtr.
  - exists []. rewrite app_nil_r. split; reflexivity.
  - cbn [put_all].
    destruct (PutUvarint_loop_fits uvarint_buf_len x) as (bs & Hbs);
      [unfold uvarint_buf_len; lia | exact Hx |].
    unfold GoBinary.PutUvarint. rewrite Hbs.
    destruct (IH (wtr ++ bs)) as (out & Hput & Hdec).
    exists (bs ++ out). rewrite Hput, app_assoc. split; [reflexivity|].
    intros t. cbn [length read_uvarints]. rewrite <- app_assoc.
    rewrite (ReadUvarint_PutUvarint uvarint_buf_len x bs (out ++ t) Hbs)
      by (change (2 ^ 56) with 72057594037927936 in Hx;
          change (2 ^ 64) with 18446744073709551616; lia).
    cbn [bind]. rewrite Hdec. reflexivity.
Qed.

Lemma Forall_select_by {A : Type} (P : A -> Prop) (ix : list bool) :
  forall xs, Forall P xs -> Forall P (select_by ix xs).
Proof.
  induction ix as [|ii ix IH]; intros xs Hall; [constructor|].
  destruct Hall as [|x xs Hx Hall]; [constructor|].
  destruct ii; cbn [select_by]; [constructor; [exact Hx|] |]; apply IH; exact Hall.
Qed.


Example douvarint_example :
  exists br out,
    read_uvarints 6 br = Ok ([300; 1; 4; 128; 9999; 2], []) /\
    douvarint_loop br [false; true; false; true; true; false] [] = (out, Ok []) /\
    read_uvarints 3 out = Ok ([1; 128; 9999], []).
Proof.
  exists [172; 2; 1; 4; 128; 1; 143; 78; 2], [1; 128; 1; 143; 78].
  repeat split.
Qed.

(** A selected value of [2^56] or more stops the loop with the panic of
    [binary.PutUvarint]: with [put_all_small], the uvarint transcoder
    completes exactly when every selected value is below [2^56]. *)
Lemma put_all_large (xs : list Z) :
  Forall (fun v => 0 <= v) xs ->
  Exists (fun v => 2 ^ 56 <= v) xs ->
  forall wtr, exists out, put_all xs wtr = (out, Some ErrIndexOutOfRange).
Proof.
  induction 1 as [|x xs Hx Hxs IH]; intros Hex wtr; [inversion Hex|].
  cbn [put_all]. unfold GoBinary.PutUvarint.
  destruct (Z.lt_ge_cases x (2 ^ 56)) as [Hsmall | Hlarge].
  - destruct (PutUvarint_loop_fits uvarint_buf_len x) as (bs & ->);
      [unfold uvarint_buf_len; lia | split; assumption |].
    apply IH. inversion Hex as [? ? Hbig | ? ? Hrest]; subst; [lia | exact Hrest].
  - rewrite PutUvarint_loop_overflows by exact Hlarge. eauto.
Qed.

Lemma douvarint_large_values_panic (br : list Z) (ix : list bool)
  (vals rest : list Z) :
  read_uvarints (length ix) br = Ok (vals, rest) ->
  Exists (fun v => 2 ^ 56 <= v) (select_by ix vals) ->
  exists out, douvarint_loop br ix [] = (out, Err ErrIndexOutOfRange).
Proof.
  intros Hrd Hex.
  destruct (read_uvarints_length _ _ _ _ Hrd) as [_ Hrange].
  assert (Hnn : Forall (fun v => 0 <= v) (select_by ix vals)).
  { apply Forall_select_by. rewrite Forall_forall in *.
    intros v Hv. specialize (Hrange v Hv). lia. }
  destruct (put_all_large _ Hnn Hex []) as (out & Hput).
  exists out. rewrite (douvarint_loop_put_all ix br [] vals rest Hrd), Hput.
  reflexivity.
Qed.

(** The examples of the specification, through [dobucket]: identifiers
    [{3,7,9}] select rows 2, 4 and 5 of every column. *)
Example dobucket_spec_example :
  dobucket [3; 7; 9] "id" spec_example_dtypes spec_example_bucket =
  ([("dtypes.json"%string, DtypesFile spec_example_dtypes);
    ("id.bin.sz"%string, ColumnFile (concat (map GoBinary.PutUint64 [3; 7; 7])));
    ("x.bin.sz"%string,
     ColumnFile (concat [[20; 0; 0; 0]; [40; 0; 0; 0]; [50; 0; 0; 0]]));
    ("u.bin.sz"%string, ColumnFile [1; 128; 1; 143; 78])],
   Ok tt).
Proof. reflexivity. Qed.

(** C1. The selection property fails on the uvarint transcoder: on a
    column whose single record is the nine-byte encoding of [2^56], with
    the mask [[true]] (as long as the column), [douvarint] panics with an
    index out of range in [binary.PutUvarint], whose buffer has 8 bytes,
    and writes nothing, where the property asks for the output [[2^56]].
    (For fixed-width columns, and for selected uvarint values below
    [2^56], the property holds: [dofixedwidth_selects],
    [douvarint_selects]; every selected value from [2^56] on panics:
    [douvarint_large_values_panic].) *)
Theorem douvarint_large_value_panics :
  read_uvarints (length [true]) uvarint_2_56 = Ok ([2 ^ 56], []) /\
  select_by [true] [2 ^ 56] = [2 ^ 56] /\
  douvarint_loop uvarint_2_56 [true] [] = ([], Err ErrIndexOutOfRange).
Proof. repeat split. Qed.

(** ** Trailing input *)

(** The fixed-width loop on a stream whose first records are one per mask
    entry: the output does not depend on what follows them, and what
    follows is left unread. *)
Lemma dofixedwidth_trailing (w : nat) (records : list (list Z))
  (ix : list bool) (t : list Z) :
  Forall (fun r => length r = w) records ->
  length records = length ix ->
  dofixedwidth_loop w (concat records ++ t) ix [] =
  (concat (select_by ix records), Ok t).
Proof.
  intros Hrec Hlen.
  rewrite dofixedwidth_loop_records by (assumption || lia).
  rewrite <- Hlen, skipn_all. reflexivity.
Qed.

(** The same for the uvarint loop: output and panic are those of the
    selected values, whatever follows the records the mask covers. *)
Lemma douvarint_trailing (p : list Z) (ix : list bool) (vals t : list Z) :
  read_uvarints (length ix) p = Ok (vals, []) ->
  douvarint_loop (p ++ t) ix [] =
  (fst (put_all (select_by ix vals) []),
   match snd (put_all (select_by ix vals) []) with
   | None => Ok t
   | Some e => Err e
   end).
Proof.
  intros Hrd. apply douvarint_loop_put_all.
  apply (read_uvarints_app _ _ _ _ t) in Hrd. exact Hrd.
Qed.

(** C10. A uvarint stream with more records than the mask has entries
    does not always complete: with the records [2^56] and [0] and the
    mask [[true]], [douvarint] panics in [binary.PutUvarint] on the first,
    selected, record.  (The output and the outcome never depend on the
    trailing content: [dofixedwidth_trailing], [douvarint_trailing].) *)
Theorem douvarint_trailing_record_panics :
  read_uvarints 2 (uvarint_2_56 ++ [0]) = Ok ([2 ^ 56; 0], []) /\
  (length [true] < 2)%nat /\
  douvarint_loop (uvarint_2_56 ++ [0]) [true] [] = ([], Err ErrIndexOutOfRange).
Proof. split; [reflexivity|]. split; [simpl; lia | reflexivity]. Qed.

(** ** Dispatch on the type tag *)

Lemma dofixedwidth_loop_zero (ix : list bool) :
  forall rdr wtr, dofixedwidth_loop 0 rdr ix wtr = (wtr, Ok rdr).
Proof.
  induction ix as [|ii ix IH]; intros rdr wtr; [reflexivity|].
  cbn [dofixedwidth_loop GoIO.ReadFull].
  destruct ii; cbn [negb]; rewrite ?app_nil_r; apply IH.
Qed.

Lemma DTsize_unknown (dt : string) :
  ~ In dt known_fixed_tags -> DTsize dt = 0%nat.
Proof.
  intros Hnot. unfold DTsize.
  repeat match goal with
         | |- context [(dt =? ?t)%string] =>
             destruct (String.eqb_spec dt t) as [-> | _];
             [exfalso; apply Hnot; unfold known_fixed_tags; simpl; tauto|]
         end.
  reflexivity.
Qed.

(** C9. A type tag that is neither [uvarint] nor [varint] nor a known
    fixed-width tag has size 0 in [config.DTsize]; the fixed-width
    transcoder then returns without error for every input and mask,
    leaving the reader where it was and writing no byte, and [dobucket]
    produces an empty column file for it instead of an error. *)
Theorem unknown_tag_empty_column (dt : string) :
  dt <> "uvarint"%string -> dt <> "varint"%string -> ~ In dt known_fixed_tags ->
  DTsize dt = 0%nat /\
  (forall rdr ix wtr, dofixedwidth_loop (DTsize dt) rdr ix wtr = (wtr, Ok rdr)) /\
  (forall src vn rdr ix tgt,
      src vn = Some rdr ->
      dobucket_loop src ix [(vn, dt)] tgt =
      (tgt ++ [(column_path vn, ColumnFile [])], Ok tt)).
Proof.
  intros Hu Hv Hk. pose proof (DTsize_unknown dt Hk) as Hz.
  split; [exact Hz|]. split.
  - intros rdr ix wtr. rewrite Hz. apply dofixedwidth_loop_zero.
  - intros src vn rdr ix tgt Hsrc. cbn [dobucket_loop].
    apply String.eqb_neq in Hu, Hv. rewrite Hu, Hv.
    unfold dofixedwidth, getreader. rewrite Hsrc, Hz, dofixedwidth_loop_zero.
    reflexivity.
Qed.

Lemma unknown_tag_empty_column_witness :
  DTsize "int32" = 0%nat /\
  (forall rdr ix wtr, dofixedwidth_loop (DTsize "int32") rdr ix wtr = (wtr, Ok rdr)) /\
  dobucket_loop varint_bucket_example [true] [("id", "int32")]%string [] =
    ([("id.bin.sz"%string, ColumnFile [])], Ok tt).
Proof.
  assert (Hk : ~ In "int32"%string known_fixed_tags).
  { unfold known_fixed_tags. simpl. intros H.
    repeat (destruct H as [H | H]; [discriminate|]). exact H. }
  destruct (unknown_tag_empty_column "int32"
              ltac:(discriminate) ltac:(discriminate) Hk) as (H0 & Hloop & Hcol).
  split; [exact H0|]. split; [exact Hloop|].
  apply (Hcol varint_bucket_example "id"%string (GoBinary.PutUint64 7)). reflexivity.
Defined.

(** ** A column declared [varint] *)

Lemma dobucket_loop_varint_fatal (src : bucket) (ix : list bool)
  (dtypes : list (string * string)) :
  (exists vn, In (vn, "varint"%string) dtypes) ->
  forall tgt, exists tgt' e, dobucket_loop src ix dtypes tgt = (tgt', Err e).
Proof.
  induction dtypes as [|[vn' dt] dtypes IH]; intros [vn Hin] tgt;
    [destruct Hin|].
  cbn [dobucket_loop].
  destruct (String.eqb_spec dt "uvarint") as [Hu | Hu].
  - destruct (douvarint src vn' ix tgt) as [tgt' [[] | e]]; [|eauto].
    apply IH. destruct Hin as [Heq | Hin]; [|eauto].
    injection Heq as _ ->. discriminate.
  - destruct (String.eqb_spec dt "varint") as [Hv | Hv]; [eauto|].
    destruct (dofixedwidth src vn' (DTsize dt) ix tgt) as [tgt' [[] | e]]; [|eauto].
    apply IH. destruct Hin as [Heq | Hin]; [|eauto].
    injection Heq as _ ->. contradiction.
Qed.

Lemma dobucket_loop_app (src : bucket) (ix : list bool)
  (pre rest : list (string * string)) :
  forall tgt tgt1,
    dobucket_loop src ix pre tgt = (tgt1, Ok tt) ->
    dobucket_loop src ix (pre ++ rest) tgt = dobucket_loop src ix rest tgt1.
Proof.
  induction pre as [|[vn dt] pre IH]; intros tgt tgt1 Hpre.
  - injection Hpre as <-. reflexivity.
  - cbn [dobucket_loop app] in *.
    destruct (dt =? "uvarint")%string.
    + destruct (douvarint src vn ix tgt) as [tgt' [[] | e]]; [|discriminate].
      apply IH. exact Hpre.
    + destruct (dt =? "varint")%string; [discriminate|].
      destruct (dofixedwidth src vn (DTsize dt) ix tgt) as [tgt' [[] | e]];
        [|discriminate].
      apply IH. exact Hpre.
Qed.

Lemma dofixedwidth_files (src : bucket) (vn : string) (w : nat)
  (ix : list bool) (tgt tgt' : target) :
  dofixedwidth src vn w ix tgt = (tgt', Ok tt) ->
  map fst tgt' = map fst tgt ++ [column_path vn].
Proof.
  unfold dofixedwidth. destruct (getreader src vn); [|discriminate].
  destruct (dofixedwidth_loop w a ix []) as [out r].
  intros H. injection H as <- _. rewrite map_app. reflexivity.
Qed.

Lemma douvarint_files (src : bucket) (vn : string)
  (ix : list bool) (tgt tgt' : target) :
  douvarint src vn ix tgt = (tgt', Ok tt) ->
  map fst tgt' = map fst tgt ++ [column_path vn].
Proof.
  unfold douvarint. destruct (getreader src vn); [|discriminate].
  destruct (douvarint_loop a ix []) as [out r].
  intros H. injection H as <- _. rewrite map_app. reflexivity.
Qed.

(** The files a successful pass over [pre] creates: one per column, in
    the order of the pass. *)
Lemma dobucket_loop_files (src : bucket) (ix : list bool)
  (pre : list (string * string)) :
  forall tgt tgt1,
    dobucket_loop src ix pre tgt = (tgt1, Ok tt) ->
    map fst tgt1 = map fst tgt ++ map (fun p => column_path (fst p)) pre.
Proof.
  induction pre as [|[vn dt] pre IH]; intros tgt tgt1 Hpre.
  - injection Hpre as <-. simpl. rewrite app_nil_r. reflexivity.
  - cbn [dobucket_loop] in Hpre. cbn [map fst].
    destruct (dt =? "uvarint")%string.
    + destruct (douvarint src vn ix tgt) as [tgt' [[] | e]] eqn:Hcol;
        [|discriminate].
      rewrite (IH _ _ Hpre), (douvarint_files _ _ _ _ _ Hcol), <- app_assoc.
      reflexivity.
    + destruct (dt =? "varint")%string; [discriminate|].
      destruct (dofixedwidth src vn (DTsize dt) ix tgt) as [tgt' [[] | e]] eqn:Hcol;
        [|discriminate].
      rewrite (IH _ _ Hpre), (dofixedwidth_files _ _ _ _ _ _ Hcol), <- app_assoc.
      reflexivity.
Qed.

(** A bucket with a [varint] column for which [dobucket] leaves the type
    metadata and the key column in the target before it panics. *)
Lemma varint_partial_output :
  In ("v", "varint")%string varint_dtypes_example /\
  dobucket [7] "id" varint_dtypes_example varint_bucket_example =
  ([("dtypes.json"%string, DtypesFile varint_dtypes_example);
    ("id.bin.sz"%string, ColumnFile (GoBinary.PutUint64 7))],
   Err ErrVarintNotImplemented).
Proof.
  split; [right; left; reflexivity | reflexivity].
Qed.

(** C6, amended. Processing a bucket whose type metadata has a column
    declared [varint] always ends in a fatal error, never in a normal
    return; when the key column decodes and the columns visited before
    the [varint] column transcode without error, that error is the
    unsupported-type panic, raised on reaching the column, with nothing
    written for the column itself: the target then holds the type
    metadata file, written first, and the files of the columns visited
    before. *)
Theorem varint_column_fatal (ids : list Z) (idv : string)
  (dtypes : list (string * string)) (src : bucket) :
  (exists vn, In (vn, "varint"%string) dtypes) ->
  (exists tgt e, dobucket ids idv dtypes src = (tgt, Err e)) /\
  (forall pre vn post ix tgt1,
      dtypes = pre ++ (vn, "varint"%string) :: post ->
      getix ids idv src = Ok ix ->
      dobucket_loop src ix pre (writedtypes dtypes []) = (tgt1, Ok tt) ->
      dobucket ids idv dtypes src = (tgt1, Err ErrVarintNotImplemented) /\
      map fst tgt1 =
        "dtypes.json"%string :: map (fun p => column_path (fst p)) pre).
Proof.
  intros Hin. split.
  - unfold dobucket. destruct (getix ids idv src) as [ix | e]; [|eauto].
    apply dobucket_loop_varint_fatal. exact Hin.
  - intros pre vn post ix tgt1 Hd Hix Hpre. unfold dobucket. rewrite Hix.
    split.
    + pose proof (dobucket_loop_app src ix pre ((vn, "varint"%string) :: post)
                    _ _ Hpre) as Happ.
      rewrite <- Hd in Happ. rewrite Happ. reflexivity.
    + rewrite (dobucket_loop_files _ _ _ _ _ Hpre). reflexivity.
Qed.

Lemma varint_column_fatal_witness :
  (exists tgt e,
      dobucket [7] "id" varint_dtypes_example varint_bucket_example = (tgt, Err e)) /\
  (dobucket [7] "id" varint_dtypes_example varint_bucket_example =
     ([("dtypes.json"%string, DtypesFile varint_dtypes_example);
       ("id.bin.sz"%string, ColumnFile (GoBinary.PutUint64 7))],
      Err ErrVarintNotImplemented) /\
   map fst [("dtypes.json"%string, DtypesFile varint_dtypes_example);
            ("id.bin.sz"%string, ColumnFile (GoBinary.PutUint64 7))] =
     ["dtypes.json"; "id.bin.sz"]%string).
Proof.
  assert (Hin : exists vn, In (vn, "varint"%string) varint_dtypes_example)
    by (exists "v"%string; right; left; reflexivity).
  destruct (varint_column_fatal [7] "id" varint_dtypes_example
              varint_bucket_example Hin) as [Hfatal Hpanic].
  split; [exact Hfatal|].
  apply (Hpanic [("id", "uint64")]%string "v"%string [] [true]); reflexivity.
Defined.

(** ** The identifier loader *)

Lemma decimal_value_from_ge (ds : list Z) :
  forall n, 0 <= n -> forallb is_digit ds = true -> n <= decimal_value_from n ds.
Proof.
  unfold decimal_value_from.
  induction ds as [|c ds IH]; intros n Hn Hds; cbn [fold_left forallb] in *; [lia|].
  apply andb_true_iff in Hds. destruct Hds as [Hc Hds].
  unfold is_digit in Hc. apply andb_true_iff in Hc.
  destruct Hc as [Hlo Hhi]. apply Z.leb_le in Hlo, Hhi.
  specialize (IH (10 * n + (c - 48)) ltac:(lia) Hds). lia.
Qed.

(** The digit loop of [strconv.ParseUint]: on digits whose value (started
    from the accumulator [n]) fits 64 bits it returns that value; on
    anything else it returns an error. *)
Lemma ParseUint_loop_spec (ds : list Z) :
  forall n, 0 <= n < 2 ^ 64 ->
    (forallb is_digit ds = true -> decimal_value_from n ds < 2 ^ 64 ->
     GoStrconv.ParseUint_loop ds n = Ok (decimal_value_from n ds)) /\
    (forallb is_digit ds = false \/ 2 ^ 64 <= decimal_value_from n ds ->
     exists e, GoStrconv.ParseUint_loop ds n = Err e).
Proof.
  induction ds as [|c ds IH]; intros n Hn.
  - split; [reflexivity|].
    intros [Hf | Hbig];
      [discriminate | unfold decimal_value_from in Hbig; cbn [fold_left] in Hbig; lia].
  - cbn [GoStrconv.ParseUint_loop forallb].
    fold (is_digit c).
    destruct (is_digit c) eqn:Hc.
    2:{ split; [discriminate | eauto]. }
    unfold is_digit in Hc. apply andb_true_iff in Hc.
    destruct Hc as [Hlo Hhi]. apply Z.leb_le in Hlo, Hhi.
    cbn [andb].
    change (decimal_value_from n (c :: ds))
      with (decimal_value_from (10 * n + (c - 48)) ds).
    unfold GoStrconv.maxUint64, to_uint64, uint64_mod.
    change (2 ^ 64) with 18446744073709551616 in *.
    change ((18446744073709551616 - 1) / 10 + 1) with 1844674407370955162.
    cbv zeta.
    destruct (Z.leb_spec 1844674407370955162 n) as [Hcut | Hcut].
    { split; [|eauto].
      intros Hds Hfit.
      pose proof (decimal_value_from_ge ds (10 * n + (c - 48)) ltac:(lia) Hds).
      lia. }
    rewrite (Z.mod_small (n * 10)) by lia.
    destruct (Z.lt_ge_cases (n * 10 + (c - 48)) 18446744073709551616)
      as [Hfits | Hover].
    + rewrite (Z.mod_small (n * 10 + (c - 48))) by lia.
      replace (n * 10 + (c - 48) <? n * 10) with false
        by (symmetry; apply Z.ltb_ge; lia).
      replace (18446744073709551616 - 1 <? n * 10 + (c - 48)) with false
        by (symmetry; apply Z.ltb_ge; lia).
      cbn [orb]. replace (n * 10) with (10 * n) by lia.
      apply IH. lia.
    + assert (Hm : (n * 10 + (c - 48)) mod 18446744073709551616 =
                   n * 10 + (c - 48) - 18446744073709551616).
      { symmetry. apply Z.mod_unique with (q := 1); lia. }
      rewrite Hm.
      replace (n * 10 + (c - 48) - 18446744073709551616 <? n * 10) with true
        by (symmetry; apply Z.ltb_lt; lia).
      cbn [orb]. split; [|eauto].
      intros Hds Hfit.
      pose proof (decimal_value_from_ge ds (10 * n + (c - 48)) ltac:(lia) Hds).
      lia.
Qed.

Lemma decimal_value_nonneg (ds : list Z) :
  forallb is_digit ds = true -> 0 <= decimal_value ds.
Proof. intros Hds. apply decimal_value_from_ge; [lia | exact Hds]. Qed.

Lemma ParseUint_spec (ds : list Z) :
  (is_digits ds = true -> decimal_value ds < 2 ^ 64 ->
   GoStrconv.ParseUint ds = Ok (decimal_value ds)) /\
  (is_digits ds = false \/ 2 ^ 64 <= decimal_value ds ->
   exists e, GoStrconv.ParseUint ds = Err e).
Proof.
  unfold is_digits, GoStrconv.ParseUint.
  destruct ds as [|c ds].
  - split; [discriminate | eauto].
  - cbn [length Nat.eqb negb andb].
    apply (ParseUint_loop_spec (c :: ds) 0). lia.
Qed.

(** [strconv.Atoi] accepts exactly the signed 64-bit literals, with their
    values. *)
Lemma Atoi_spec (s : string) :
  match int64_literal s with
  | Some v => GoStrconv.Atoi s = Ok v
  | None => exists e, GoStrconv.Atoi s = Err e
  end.
Proof.
  unfold GoStrconv.Atoi, int64_literal, GoStrconv.ParseInt.
  destruct (GoStrconv.bytes_of s) as [|c bs]; [cbn; eauto|].
  cbv zeta.
  set (ds := if (c =? 43) || (c =? 45) then bs else c :: bs).
  destruct (ParseUint_spec ds) as [Hok Herr].
  destruct (is_digits ds) eqn:Hd.
  2:{ destruct Herr as (e & ->); [left; reflexivity | eauto]. }
  assert (Hnn : 0 <= decimal_value ds).
  { apply decimal_value_nonneg. unfold is_digits in Hd.
    apply andb_true_iff in Hd. tauto. }
  unfold GoStrconv.to_int64.
  change (2 ^ 63) with 9223372036854775808 in *.
  change (2 ^ 64) with 18446744073709551616 in *.
  destruct (Z.lt_ge_cases (decimal_value ds) 18446744073709551616) as [Hfit | Hbig].
  - rewrite (Hok eq_refl Hfit). clear Hok Herr.
    destruct (c =? 45); cbn [negb andb];
      repeat match goal with
             | |- context [?a <=? ?b] => destruct (Z.leb_spec a b)
             | |- context [?a <? ?b] => destruct (Z.ltb_spec a b)
             end; cbn [andb]; try lia; eauto; f_equal.
    + destruct (Z.eq_dec (decimal_value ds) 9223372036854775808) as [-> | Hne];
        [reflexivity|].
      rewrite (Z.mod_small (decimal_value ds + 9223372036854775808)) by lia.
      replace (- (decimal_value ds + 9223372036854775808 - 9223372036854775808)
               + 9223372036854775808)
        with (9223372036854775808 - decimal_value ds) by lia.
      rewrite Z.mod_small by lia. lia.
    + rewrite Z.mod_small by lia. lia.
  - destruct Herr as (e & ->); [right; exact Hbig|].
    destruct (c =? 45);
      repeat match goal with
             | |- context [?a <=? ?b] => destruct (Z.leb_spec a b)
             | |- context [?a <? ?b] => destruct (Z.ltb_spec a b)
             end; cbn [andb]; try lia; eauto.
Qed.

(** Insertion sort returns the ascending permutation. *)
Lemma insert_perm (x : Z) (l : list Z) : Permutation (GoSort.insert x l) (x :: l).
Proof.
  induction l as [|y l IH]; cbn [GoSort.insert]; [reflexivity|].
  destruct (x <=? y); [reflexivity|].
  rewrite IH. apply perm_swap.
Qed.

Lemma Sort_perm (l : list Z) : Permutation (GoSort.Sort l) l.
Proof.
  induction l as [|x l IH]; cbn [GoSort.Sort]; [reflexivity|].
  rewrite insert_perm, IH. reflexivity.
Qed.

Lemma insert_sorted (x : Z) (l : list Z) :
  Sorted Z.le l -> Sorted Z.le (GoSort.insert x l).
Proof.
  induction 1 as [|y l Hs IH Hhd]; cbn [GoSort.insert].
  - repeat constructor.
  - destruct (Z.leb_spec x y) as [Hle | Hgt].
    + repeat constructor; assumption.
    + constructor; [exact IH|].
      destruct Hhd as [|z l Hyz]; cbn [GoSort.insert].
      * repeat constructor. lia.
      * destruct (x <=? z); constructor; lia.
Qed.

Lemma Sort_sorted (l : list Z) : Sorted Z.le (GoSort.Sort l).
Proof.
  induction l as [|x l IH]; cbn [GoSort.Sort]; [constructor|].
  apply insert_sorted. exact IH.
Qed.

(** The loop of [getids] appends the converted value of every line, or
    stops at the first line [strconv.Atoi] rejects. *)
Lemma getids_loop_accepts (lines : list string) (vals : list Z) :
  Forall2 (fun l v => int64_literal l = Some v) lines vals ->
  forall ids, getids_loop lines ids = Ok (ids ++ map to_uint64 vals).
Proof.
  induction 1 as [|l v lines vals Hl _ IH]; intros ids; cbn [getids_loop map].
  - rewrite app_nil_r. reflexivity.
  - pose proof (Atoi_spec l) as Ha. rewrite Hl in Ha. rewrite Ha.
    cbn [bind]. rewrite IH, <- app_assoc. reflexivity.
Qed.

Lemma getids_loop_rejects (lines : list string) :
  Exists (fun l => int64_literal l = None) lines ->
  forall ids, exists e, getids_loop lines ids = Err e.
Proof.
  induction lines as [|l lines IH]; intros Hex ids; [inversion Hex|].
  cbn [getids_loop].
  pose proof (Atoi_spec l) as Ha.
  destruct (int64_literal l) as [v|] eqn:Hl.
  - rewrite Ha. cbn [bind]. apply IH.
    inversion Hex as [? ? Hn | ? ? Hrest]; subst; [congruence | exact Hrest].
  - destruct Ha as (e & ->). cbn [bind]. eauto.
Qed.

(** A line that is not an unsigned literal and is accepted, and a valid
    unsigned 64-bit literal that is rejected. *)
Lemma getids_signed_not_unsigned :
  (unsigned_literal "-1" = false /\
   getids ["-1"%string] = Ok [18446744073709551615]) /\
  (uint64_literal "9223372036854775808" = true /\
   getids ["9223372036854775808"%string] = Err ErrRange).
Proof. repeat split. Qed.

(** What [getids] does on the lines of a clean scan.  When every line
    is a signed 64-bit decimal literal (an optional sign, one or more
    digits, a value in [[-2^63, 2^63)]) it returns the values converted
    to [uint64] (negative ones wrap modulo [2^64]) in ascending order;
    when some line is not, it panics with the error of [strconv.Atoi].
    A result it returns is always sorted ascending. *)
Theorem getids_int64_literals (lines : list string) :
  (forall vals,
      Forall2 (fun l v => int64_literal l = Some v) lines vals ->
      exists ids, getids lines = Ok ids /\
                  Permutation ids (map to_uint64 vals) /\
                  Sorted Z.le ids) /\
  (Exists (fun l => int64_literal l = None) lines ->
   exists e, getids lines = Err e) /\
  (forall ids, getids lines = Ok ids -> Sorted Z.le ids).
Proof.
  split; [|split].
  - intros vals Hall. unfold getids.
    rewrite (getids_loop_accepts lines vals Hall []). cbn [bind app].
    eexists. split; [reflexivity|]. split; [apply Sort_perm | apply Sort_sorted].
  - intros Hex. unfold getids.
    destruct (getids_loop_rejects lines Hex []) as (e & ->). cbn [bind]. eauto.
  - intros ids. unfold getids.
    destruct (getids_loop lines []) as [ids0 | e]; [|discriminate].
    cbn [bind]. intros H. injection H as <-. apply Sort_sorted.
Qed.

Lemma getids_int64_literals_witness :
  (exists ids, getids ["7"; "-1"; "+3"]%string = Ok ids /\
               Permutation ids (map to_uint64 [7; -1; 3]) /\
               Sorted Z.le ids) /\
  (exists e, getids ["7"; "0x10"]%string = Err e).
Proof.
  split.
  - apply (getids_int64_literals ["7"; "-1"; "+3"]%string).
    repeat constructor.
  - apply (getids_int64_literals ["7"; "0x10"]%string).
    right. left. reflexivity.
Defined.

(** ** Preflight *)

(** The branch of [check] that reports equal directories is dead: it is
    reached only after both [os.Stat] calls failed, with two nil
    [FileInfo]s, for which [os.SameFile] is false. *)
Lemma check_never_reports_same_dir (fs : filesystem) (fl : flags) :
  ~ In (Stderr MsgSameDir) (fst (check fs fl)).
Proof.
  unfold check, Stat.
  destruct (negb (replace fl) && negb (IsNotExist (snd _))).
  - simpl. intros [H | []]. discriminate.
  - destruct (fs (targetdir fl)); [simpl; tauto|].
    destruct (fs (sourcedir fl)); simpl; tauto.
Qed.

(** C5. With overwriting allowed and the target directory being the
    source directory, which exists, [check] returns without a message
    and [main] goes on to create the log file and the target directory
    and to run the selection, where the specification asks for a report
    and a non-zero exit before any mutation. *)
Theorem check_same_directory_passes (run : flags -> list event * Z) :
  targetdir same_dir_flags = sourcedir same_dir_flags /\
  same_dir_fs (targetdir same_dir_flags) = inl 1%nat /\
  check same_dir_fs same_dir_flags = ([], None) /\
  main run same_dir_fs same_dir_flags =
    (Mutate (CreateFile "select.log") :: Mutate (MkdirAll "data") ::
       fst (run same_dir_flags),
     snd (run same_dir_flags)).
Proof. repeat split. Qed.

(** C7. When a required parameter ([idvar], [idfile], [targetdir],
    [sourcedir]) is missing, or when the target directory exists and
    overwriting is not allowed, [main] prints one message and exits with
    status 1, and no event of the run is a mutation of the filesystem. *)
Theorem main_preflight_exit (run : flags -> list event * Z)
  (fs : filesystem) (fl : flags) :
  (idvar fl = ""%string \/ idfile fl = ""%string \/
   targetdir fl = ""%string \/ sourcedir fl = ""%string) \/
  (replace fl = false /\ exists id, fs (targetdir fl) = inl id) ->
  exists m ev,
    main run fs fl = (ev, 1) /\
    (ev = [Stderr m] \/ ev = [Stdout m]) /\
    Forall (fun e => is_mutation e = false) ev.
Proof.
  intros Hpre. unfold main.
  destruct ((idvar fl =? "") || (idfile fl =? "") ||
            (targetdir fl =? "") || (sourcedir fl =? ""))%string eqn:Hmiss.
  - exists MsgUsage, [Stderr MsgUsage].
    split; [reflexivity|]. split; [left; reflexivity | repeat constructor].
  - apply orb_false_iff in Hmiss. destruct Hmiss as [Hmiss Hs].
    apply orb_false_iff in Hmiss. destruct Hmiss as [Hmiss Ht].
    apply orb_false_iff in Hmiss. destruct Hmiss as [Hv Hf].
    apply String.eqb_neq in Hv, Hf, Ht, Hs.
    destruct Hpre as [[H | [H | [H | H]]] | (Hrep & id & Hid)]; try contradiction.
    unfold check, Stat. rewrite Hrep, Hid. cbn.
    exists (MsgUseReplace (targetdir fl)), [Stdout (MsgUseReplace (targetdir fl))].
    split; [reflexivity|]. split; [right; reflexivity | repeat constructor].
Qed.

Lemma main_preflight_exit_witness :
  exists m ev,
    main (fun _ => ([], 0)) same_dir_fs (mkFlags "id" "ids.txt" "data" "src" false) =
      (ev, 1) /\
    (ev = [Stderr m] \/ ev = [Stdout m]) /\
    Forall (fun e => is_mutation e = false) ev.
Proof.
  apply (main_preflight_exit (fun _ => ([], 0)) same_dir_fs
           (mkFlags "id" "ids.txt" "data" "src" false)).
  right. split; [reflexivity|]. exists 1%nat. reflexivity.
Defined.

(** ** The scheduler *)

Lemma sched_inv_init (N : nat) : sched_inv N sched_init.
Proof.
  unfold sched_inv, sched_init. simpl. repeat split; lia.
Qed.

Lemma sched_inv_step (N : nat) (s s' : sched) :
  sched_inv N s -> step N s s' -> sched_inv N s'.
Proof.
  intros (Hsem & Hcap & Hpc & Hall) Hstep.
  destruct Hstep; unfold sched_inv in *; cbn [pc sem_len running finished held
    launched pc_in_range length] in *.
  - repeat split; try lia. exact Hall.
  - repeat split; try lia.
    intros b Hb. destruct (Nat.eq_dec b k) as [-> | Hne]; [left; left; reflexivity|].
    destruct (Hall b ltac:(lia)) as [Hin | Hin]; [left; right; exact Hin | right; exact Hin].
  - repeat split; try lia.
    intros b Hb. apply Hall. lia.
  - rewrite length_app in *. cbn [length] in *.
    repeat split; try lia; try exact Hpc.
    intros b' Hb'. destruct (Hall b' Hb') as [Hin | Hin].
    + apply in_app_or in Hin. destruct Hin as [Hin | [-> | Hin]].
      * left. apply in_or_app. left. exact Hin.
      * right. left. reflexivity.
      * left. apply in_or_app. right. exact Hin.
    + right. right. exact Hin.
  - repeat split; try lia. exact Hall.
  - repeat split; try lia. exact Hall.
Qed.

Lemma reachable_inv (N : nat) (s : sched) : reachable N s -> sched_inv N s.
Proof.
  induction 1 as [|s s' _ IH Hstep]; [apply sched_inv_init|].
  exact (sched_inv_step N s s' IH Hstep).
Qed.

(** C8. In every state the run over [N] buckets can reach, at most
    [concurrency = 20] [dobucket] jobs are between their launch and their
    deferred release of the semaphore; and once [main] is past the second
    loop, which fills the channel, no job is running and every bucket
    below [N] has finished. *)
Theorem scheduler_bound (N : nat) (s : sched) :
  reachable N s ->
  (length (running s) <= concurrency)%nat /\
  (pc s = Done ->
   running s = [] /\ forall b, (b < N)%nat -> In b (finished s)).
Proof.
  intros Hreach. destruct (reachable_inv N s Hreach) as (Hsem & Hcap & Hpc & Hall).
  split; [lia|].
  intros Hdone. rewrite Hdone in *. cbn [held launched] in *.
  assert (Hnil : running s = []).
  { destruct (running s); [reflexivity | simpl in Hsem; lia]. }
  split; [exact Hnil|].
  intros b Hb. destruct (Hall b Hb) as [Hin | Hin]; [|exact Hin].
  rewrite Hnil in Hin. destruct Hin.
Qed.

Lemma scheduler_bound_witness :
  (length (running (mkSched Done 20 [] [0%nat])) <= concurrency)%nat /\
  (pc (mkSched Done 20 [] [0%nat]) = Done ->
   running (mkSched Done 20 [] [0%nat]) = [] /\
   forall b, (b < 1)%nat -> In b (finished (mkSched Done 20 [] [0%nat]))).
Proof.
  apply (scheduler_bound 1).
  eapply reach_step; [|apply (step_done 1)].
  unfold concurrency.
  do 20 (eapply reach_step; [|apply step_drain; unfold concurrency; lia]).
  eapply reach_step; [|apply (step_release 1 (Drain 0) 0 [] 0%nat [] [])].
  eapply reach_step; [|apply (step_loop_exit 1 1); lia].
  eapply reach_step; [|apply step_launch].
  eapply reach_step; [|apply step_send; unfold concurrency; lia].
  apply reach_init.
Defined.

(** * Further properties *)

(** ** The fixed-width transcoder, continued *)




Lemma ReadFull_enough (rdr : list Z) (w : nat) :
  (w <= length rdr)%nat ->
  GoIO.ReadFull rdr w = Ok (firstn w rdr, skipn w rdr).
Proof.
  intros Hw. unfold GoIO.ReadFull.
  destruct w as [|w]; [reflexivity|].
  destruct rdr as [|b rdr]; [simpl in Hw; lia|].
  replace (length (b :: rdr) <? S w)%nat with false
    by (symmetry; apply Nat.ltb_ge; exact Hw).
  reflexivity.
Qed.

Lemma ReadFull_short (rdr : list Z) (w : nat) :
  (length rdr < w)%nat ->
  GoIO.ReadFull rdr w = Err (if (length rdr =? 0)%nat then EOF else ErrUnexpectedEOF).
Proof.
  intros Hw. unfold GoIO.ReadFull.
  destruct w as [|w]; [lia|].
  destruct rdr as [|b rdr]; [reflexivity|].
  replace (length (b :: rdr) <? S w)%nat with true
    by (symmetry; apply Nat.ltb_lt; exact Hw).
  reflexivity.
Qed.

Lemma dofixedwidth_loop_enough (w : nat) (ix : list bool) :
  forall rdr wtr,
    (w * length ix <= length rdr)%nat ->
    exists out,
      dofixedwidth_loop w rdr ix wtr = (out, Ok (skipn (w * length ix) rdr)).
Proof.
  induction ix as [|ii ix IH]; intros rdr wtr Hlen.
  - exists wtr. rewrite Nat.mul_0_r. reflexivity.
  - cbn [length] in Hlen. cbn [dofixedwidth_loop].
    rewrite ReadFull_enough by lia.
    assert (Hrest : (w * length ix <= length (skipn w rdr))%nat)
      by (rewrite length_skipn; lia).
    replace (skipn (w * length (ii :: ix)) rdr)
      with (skipn (w * length ix) (skipn w rdr))
      by (rewrite skipn_skipn; f_equal; cbn [length]; lia).
    destruct ii; cbn [negb]; apply IH; exact Hrest.
Qed.

Lemma dofixedwidth_loop_short (w : nat) (ix : list bool) :
  forall rdr wtr,
    (length rdr < w * length ix)%nat ->
    exists out e,
      dofixedwidth_loop w rdr ix wtr = (out, Err e) /\
      (e = EOF \/ e = ErrUnexpectedEOF).
Proof.
  induction ix as [|ii ix IH]; intros rdr wtr Hlen; [simpl in Hlen; lia|].
  cbn [length] in Hlen. cbn [dofixedwidth_loop].
  destruct (Nat.lt_ge_cases (length rdr) w) as [Hshort | Henough].
  - rewrite ReadFull_short by exact Hshort.
    exists wtr. eexists. split; [reflexivity|].
    destruct (length rdr =? 0)%nat; [left | right]; reflexivity.
  - rewrite ReadFull_enough by exact Henough.
    assert (Hrest : (length (skipn w rdr) < w * length ix)%nat)
      by (rewrite length_skipn; lia).
    destruct ii; cbn [negb]; apply IH; exact Hrest.
Qed.

(** The fixed-width loop keeps reader and mask in step: it returns
    normally exactly when the column holds [w] bytes for every mask entry,
    and then the reader stands right after them; on a shorter column it
    panics with the end-of-file error of [io.ReadFull], it never stops
    early without error. *)
Theorem dofixedwidth_loop_ok_iff (w : nat) (rdr : list Z) (ix : list bool) :
  ((exists out rest, dofixedwidth_loop w rdr ix [] = (out, Ok rest)) <->
   (w * length ix <= length rdr)%nat) /\
  (forall out rest,
      dofixedwidth_loop w rdr ix [] = (out, Ok rest) ->
      rest = skipn (w * length ix) rdr) /\
  (forall out e,
      dofixedwidth_loop w rdr ix [] = (out, Err e) ->
      e = EOF \/ e = ErrUnexpectedEOF).
Proof.
  destruct (Nat.le_gt_cases (w * length ix) (length rdr)) as [Hen | Hsh].
  - destruct (dofixedwidth_loop_enough w ix rdr [] Hen) as (out & Hok).
    rewrite Hok. split; [|split].
    + split; [intros _; exact Hen | intros _; eauto].
    + intros out' rest H. injection H as _ <-. reflexivity.
    + intros out' e H. discriminate.
  - destruct (dofixedwidth_loop_short w ix rdr [] Hsh) as (out & e & Herr & He).
    rewrite Herr. split; [|split].
    + split; [intros (out' & rest & H); discriminate | lia].
    + intros out' rest H. discriminate.
    + intros out' e' H. injection H as _ <-. exact He.
Qed.

(** Whatever follows the records the mask covers has no effect on the
    output of the fixed-width loop, and is left unread. *)
Theorem dofixedwidth_trailing_independent (w : nat) (records : list (list Z))
  (ix : list bool) (t1 t2 : list Z) :
  Forall (fun r => length r = w) records ->
  length records = length ix ->
  fst (dofixedwidth_loop w (concat records ++ t1) ix []) =
  fst (dofixedwidth_loop w (concat records ++ t2) ix []) /\
  snd (dofixedwidth_loop w (concat records ++ t1) ix []) = Ok t1 /\
  snd (dofixedwidth_loop w (concat records ++ t2) ix []) = Ok t2.
Proof.
  intros Hrec Hlen.
  rewrite !dofixedwidth_loop_records by (assumption || lia).
  rewrite <- Hlen, skipn_all. repeat split.
Qed.

Lemma dofixedwidth_trailing_independent_witness :
  fst (dofixedwidth_loop 2 (concat [[1; 2]; [3; 4]] ++ [9]) [true; false] []) =
  fst (dofixedwidth_loop 2 (concat [[1; 2]; [3; 4]] ++ [7; 7; 7]) [true; false] []) /\
  snd (dofixedwidth_loop 2 (concat [[1; 2]; [3; 4]] ++ [9]) [true; false] []) = Ok [9] /\
  snd (dofixedwidth_loop 2 (concat [[1; 2]; [3; 4]] ++ [7; 7; 7]) [true; false] []) =
    Ok [7; 7; 7].
Proof.
  apply (dofixedwidth_trailing_independent 2 [[1; 2]; [3; 4]] [true; false]
           [9] [7; 7; 7]).
  - repeat constructor.
  - reflexivity.
Defined.

(** ** The uvarint transcoder, continued *)

Lemma PutUvarint_ok_small (x : Z) (bs : list Z) :
  GoBinary.PutUvarint uvarint_buf_len x = Ok bs -> x < 2 ^ 56.
Proof.
  intros Hput. destruct (Z.lt_ge_cases x (2 ^ 56)) as [|Hlarge]; [assumption|].
  unfold GoBinary.PutUvarint in Hput.
  rewrite PutUvarint_loop_overflows in Hput by exact Hlarge. discriminate.
Qed.

Lemma douvarint_loop_ok_inv (ix : list bool) :
  forall br wtr out rest,
    douvarint_loop br ix wtr = (out, Ok rest) ->
    exists vals,
      read_uvarints (length ix) br = Ok (vals, rest) /\
      Forall (fun v => v < 2 ^ 56) (select_by ix vals).
Proof.
  induction ix as [|ii ix IH]; intros br wtr out rest Hloop.
  - injection Hloop as _ <-. exists []. split; [reflexivity | constructor].
  - cbn [douvarint_loop] in Hloop. cbn [length read_uvarints].
    destruct (GoBinary.ReadUvarint br) as [[x br'] | e]; [|discriminate].
    cbn [bind].
    destruct ii; cbn [negb] in Hloop.
    + destruct (GoBinary.PutUvarint uvarint_buf_len x) as [bs | e] eqn:Hput;
        [|discriminate].
      destruct (IH _ _ _ _ Hloop) as (vals & -> & Hsmall).
      exists (x :: vals). split; [reflexivity|].
      cbn [select_by]. constructor; [eapply PutUvarint_ok_small; exact Hput | exact Hsmall].
    + destruct (IH _ _ _ _ Hloop) as (vals & -> & Hsmall).
      exists (x :: vals). split; [reflexivity | exact Hsmall].
Qed.

(** The uvarint loop returns normally exactly when the column holds a
    well-formed uvarint record for every mask entry and every selected
    value is below [2^56]; the reader then stands right after those
    records. *)
Theorem douvarint_loop_ok_iff (br : list Z) (ix : list bool) (rest : list Z) :
  (exists out, douvarint_loop br ix [] = (out, Ok rest)) <->
  (exists vals,
      read_uvarints (length ix) br = Ok (vals, rest) /\
      Forall (fun v => v < 2 ^ 56) (select_by ix vals)).
Proof.
  split.
  - intros (out & Hloop). eapply douvarint_loop_ok_inv. exact Hloop.
  - intros (vals & Hrd & Hsmall).
    destruct (read_uvarints_length _ _ _ _ Hrd) as [_ Hrange].
    assert (Hsel : Forall (fun v => 0 <= v < 2 ^ 56) (select_by ix vals)).
    { pose proof (Forall_select_by _ ix vals Hrange) as Hr.
      rewrite Forall_forall in *. intros v Hv.
      specialize (Hr v Hv). specialize (Hsmall v Hv). lia. }
    destruct (put_all_small _ Hsel []) as (out & Hput & _).
    exists out. rewrite (douvarint_loop_put_all ix br [] vals rest Hrd), Hput.
    reflexivity.
Qed.

(** On a column whose records cover the mask, the uvarint loop panics
    with the index error of [binary.PutUvarint] exactly when some selected
    value is [2^56] or more. *)
Theorem douvarint_loop_panics_iff (br : list Z) (ix : list bool)
  (vals rest : list Z) :
  read_uvarints (length ix) br = Ok (vals, rest) ->
  ((exists out, douvarint_loop br ix [] = (out, Err ErrIndexOutOfRange)) <->
   Exists (fun v => 2 ^ 56 <= v) (select_by ix vals)).
Proof.
  intros Hrd.
  destruct (read_uvarints_length _ _ _ _ Hrd) as [_ Hrange].
  pose proof (Forall_select_by _ ix vals Hrange) as Hsel.
  split.
  - intros (out & Hloop).
    apply Exists_exists.
    destruct (Forall_Exists_dec (fun v => v < 2 ^ 56)
                (fun v => Z_lt_dec v (2 ^ 56)) (select_by ix vals))
      as [Hsmall | Hlarge].
    + assert (Hs : Forall (fun v => 0 <= v < 2 ^ 56) (select_by ix vals)).
      { rewrite Forall_forall in *. intros v Hv.
        specialize (Hsel v Hv). specialize (Hsmall v Hv). lia. }
      destruct (put_all_small _ Hs []) as (out' & Hput & _).
      rewrite (douvarint_loop_put_all ix br [] vals rest Hrd), Hput in Hloop.
      discriminate.
    + apply Exists_exists in Hlarge. destruct Hlarge as (v & Hv & Hnot).
      exists v. split; [exact Hv | lia].
  - intros Hex.
    assert (Hnn : Forall (fun v => 0 <= v) (select_by ix vals)).
    { rewrite Forall_forall in *. intros v Hv. specialize (Hsel v Hv). lia. }
    destruct (put_all_large _ Hnn Hex []) as (out & Hput).
    exists out. rewrite (douvarint_loop_put_all ix br [] vals rest Hrd), Hput.
    reflexivity.
Qed.

Lemma douvarint_loop_panics_iff_witness :
  (exists out,
      douvarint_loop (uvarint_2_56 ++ [5]) [true; true] [] =
        (out, Err ErrIndexOutOfRange)) <->
  Exists (fun v => 2 ^ 56 <= v) (select_by [true; true] [2 ^ 56; 5]).
Proof.
  apply (douvarint_loop_panics_iff (uvarint_2_56 ++ [5]) [true; true]
           [2 ^ 56; 5] []).
  reflexivity.
Defined.



(** The output of the uvarint loop is decided by the decoded values: two
    columns that decode to the same values, whatever their bytes (an
    encoding need not be the shortest one), give the same output bytes and
    the same outcome. *)
Theorem douvarint_value_determined (br1 br2 : list Z) (ix : list bool)
  (vals r1 r2 : list Z) :
  read_uvarints (length ix) br1 = Ok (vals, r1) ->
  read_uvarints (length ix) br2 = Ok (vals, r2) ->
  fst (douvarint_loop br1 ix []) = fst (douvarint_loop br2 ix []) /\
  ((snd (douvarint_loop br1 ix []) = Ok r1 /\
    snd (douvarint_loop br2 ix []) = Ok r2) \/
   (exists e, snd (douvarint_loop br1 ix []) = Err e /\
              snd (douvarint_loop br2 ix []) = Err e)).
Proof.
  intros H1 H2.
  rewrite (douvarint_loop_put_all ix br1 [] vals r1 H1).
  rewrite (douvarint_loop_put_all ix br2 [] vals r2 H2).
  cbn [fst snd]. split; [reflexivity|].
  destruct (snd (put_all (select_by ix vals) [])) as [e|]; [right; eauto | left; auto].
Qed.

Lemma douvarint_value_determined_witness :
  fst (douvarint_loop [128; 0; 5] [true; true] []) =
  fst (douvarint_loop [0; 133; 0] [true; true] []) /\
  ((snd (douvarint_loop [128; 0; 5] [true; true] []) = Ok [] /\
    snd (douvarint_loop [0; 133; 0] [true; true] []) = Ok []) \/
   (exists e, snd (douvarint_loop [128; 0; 5] [true; true] []) = Err e /\
              snd (douvarint_loop [0; 133; 0] [true; true] []) = Err e)).
Proof.
  apply (douvarint_value_determined [128; 0; 5] [0; 133; 0] [true; true] [0; 5]);
    reflexivity.
Defined.

(** Whatever follows the records the mask covers has no effect on the
    uvarint loop: same output, and the same outcome, with the trailing
    bytes left unread when it returns. *)
Theorem douvarint_trailing_independent (p : list Z) (ix : list bool)
  (vals t1 t2 : list Z) :
  read_uvarints (length ix) p = Ok (vals, []) ->
  fst (douvarint_loop (p ++ t1) ix []) = fst (douvarint_loop (p ++ t2) ix []) /\
  ((snd (douvarint_loop (p ++ t1) ix []) = Ok t1 /\
    snd (douvarint_loop (p ++ t2) ix []) = Ok t2) \/
   (exists e, snd (douvarint_loop (p ++ t1) ix []) = Err e /\
              snd (douvarint_loop (p ++ t2) ix []) = Err e)).
Proof.
  intros Hrd.
  pose proof (read_uvarints_app _ _ _ _ t1 Hrd) as H1.
  pose proof (read_uvarints_app _ _ _ _ t2 Hrd) as H2.
  cbn [app] in H1, H2.
  rewrite (douvarint_loop_put_all ix (p ++ t1) [] vals t1 H1).
  rewrite (douvarint_loop_put_all ix (p ++ t2) [] vals t2 H2).
  cbn [fst snd]. split; [reflexivity|].
  destruct (snd (put_all (select_by ix vals) [])) as [e|]; [right; eauto | left; auto].
Qed.

Lemma douvarint_trailing_independent_witness :
  fst (douvarint_loop ([172; 2; 1] ++ [255]) [true; false] []) =
  fst (douvarint_loop ([172; 2; 1] ++ [7; 7]) [true; false] []) /\
  ((snd (douvarint_loop ([172; 2; 1] ++ [255]) [true; false] []) = Ok [255] /\
    snd (douvarint_loop ([172; 2; 1] ++ [7; 7]) [true; false] []) = Ok [7; 7]) \/
   (exists e, snd (douvarint_loop ([172; 2; 1] ++ [255]) [true; false] []) = Err e /\
              snd (douvarint_loop ([172; 2; 1] ++ [7; 7]) [true; false] []) = Err e)).
Proof.
  apply (douvarint_trailing_independent [172; 2; 1] [true; false] [300; 1]).
  reflexivity.
Defined.

Lemma select_by_all_true {A : Type} (xs : list A) :
  select_by (repeat true (length xs)) xs = xs.
Proof.
  induction xs as [|x xs IH]; [reflexivity|].
  cbn [length repeat select_by]. rewrite IH. reflexivity.
Qed.

(** Transcoding is a projection: a column the uvarint loop has written,
    transcoded again with every row selected, is written back byte for
    byte. *)
Theorem douvarint_idempotent (br : list Z) (ix : list bool) (out rest : list Z) :
  douvarint_loop br ix [] = (out, Ok rest) ->
  douvarint_loop out (repeat true (count_occ bool_dec ix true)) [] = (out, Ok []).
Proof.
  intros Hloop.
  destruct (douvarint_loop_ok_inv ix br [] out rest Hloop) as (vals & Hrd & Hsmall).
  destruct (read_uvarints_length _ _ _ _ Hrd) as [Hlen Hrange].
  assert (Hsel : Forall (fun v => 0 <= v < 2 ^ 56) (select_by ix vals)).
  { pose proof (Forall_select_by _ ix vals Hrange) as Hr.
    rewrite Forall_forall in *. intros v Hv.
    specialize (Hr v Hv). specialize (Hsmall v Hv). lia. }
  destruct (put_all_small _ Hsel []) as (out' & Hput & Hdec).
  rewrite (douvarint_loop_put_all ix br [] vals rest Hrd), Hput in Hloop.
  injection Hloop as <-. cbn [app] in *.
  specialize (Hdec []). rewrite app_nil_r in Hdec.
  rewrite <- (length_select_by ix vals) by lia.
  assert (Hrd' : read_uvarints (length (repeat true (length (select_by ix vals))))
                   out' = Ok (select_by ix vals, []))
    by (rewrite repeat_length; exact Hdec).
  rewrite (douvarint_loop_put_all _ out' [] _ [] Hrd').
  rewrite select_by_all_true, Hput. reflexivity.
Qed.

Lemma douvarint_idempotent_witness :
  douvarint_loop [1; 128; 1; 143; 78]
    (repeat true (count_occ bool_dec [false; true; false; true; true; false] true)) [] =
  ([1; 128; 1; 143; 78], Ok []).
Proof.
  apply (douvarint_idempotent [172; 2; 1; 4; 128; 1; 143; 78; 2]
           [false; true; false; true; true; false] [1; 128; 1; 143; 78] []).
  reflexivity.
Defined.

(** ** Both transcoders *)

Lemma all_false_no_write (ix : list bool) :
  Forall (fun ii => ii = false) ix ->
  (forall w rdr wtr, fst (dofixedwidth_loop w rdr ix wtr) = wtr) /\
  (forall br wtr, fst (douvarint_loop br ix wtr) = wtr).
Proof.
  induction 1 as [|ii ix Hii _ [IHf IHu]]; [split; reflexivity|].
  subst ii. split.
  - intros w rdr wtr. cbn [dofixedwidth_loop].
    destruct (GoIO.ReadFull rdr w) as [[b rdr'] | e]; [|reflexivity].
    cbn [negb]. apply IHf.
  - intros br wtr. cbn [douvarint_loop].
    destruct (GoBinary.ReadUvarint br) as [[x br'] | e]; [|reflexivity].
    cbn [negb]. apply IHu.
Qed.

Lemma count_occ_true_zero (ix : list bool) :
  count_occ bool_dec ix true = 0%nat -> Forall (fun ii => ii = false) ix.
Proof.
  induction ix as [|ii ix IH]; intros Hc; [constructor|].
  destruct ii; cbn [count_occ] in Hc.
  - destruct (bool_dec true true); [discriminate | contradiction].
  - destruct (bool_dec false true); [discriminate|].
    constructor; [reflexivity | apply IH; exact Hc].
Qed.

(** A mask without a true entry writes nothing to the output, for both
    transcoders, for every input, also when the loop panics on the way. *)
Theorem no_selection_no_write (ix : list bool) :
  count_occ bool_dec ix true = 0%nat ->
  (forall w rdr wtr, fst (dofixedwidth_loop w rdr ix wtr) = wtr) /\
  (forall br wtr, fst (douvarint_loop br ix wtr) = wtr).
Proof.
  intros Hc. apply all_false_no_write, count_occ_true_zero. exact Hc.
Qed.

Lemma no_selection_no_write_witness :
  (forall w rdr wtr, fst (dofixedwidth_loop w rdr [false; false] wtr) = wtr) /\
  (forall br wtr, fst (douvarint_loop br [false; false] wtr) = wtr).
Proof.
  apply (no_selection_no_write [false; false]). reflexivity.
Defined.

(** Processing the mask [ix1 ++ ix2] is processing [ix1] and then, from
    the reader and writer it leaves, [ix2]; a panic under [ix1] is the
    panic of the whole. *)
Theorem transcoder_loop_app (ix1 ix2 : list bool) :
  (forall w rdr wtr,
      dofixedwidth_loop w rdr (ix1 ++ ix2) wtr =
      match dofixedwidth_loop w rdr ix1 wtr with
      | (wtr1, Ok rdr1) => dofixedwidth_loop w rdr1 ix2 wtr1
      | (wtr1, Err e) => (wtr1, Err e)
      end) /\
  (forall br wtr,
      douvarint_loop br (ix1 ++ ix2) wtr =
      match douvarint_loop br ix1 wtr with
      | (wtr1, Ok br1) => douvarint_loop br1 ix2 wtr1
      | (wtr1, Err e) => (wtr1, Err e)
      end).
Proof.
  induction ix1 as [|ii ix1 [IHf IHu]]; [split; reflexivity|]. split.
  - intros w rdr wtr. cbn [app dofixedwidth_loop].
    destruct (GoIO.ReadFull rdr w) as [[b rdr'] | e]; [|reflexivity].
    destruct (negb ii); apply IHf.
  - intros br wtr. cbn [app douvarint_loop].
    destruct (GoBinary.ReadUvarint br) as [[x br'] | e]; [|reflexivity].
    destruct (negb ii); [apply IHu|].
    destruct (GoBinary.PutUvarint uvarint_buf_len x) as [bs | e]; [apply IHu | reflexivity].
Qed.

(** ** The mask builder, continued *)

Lemma Read_uint64_cases (rdr : list Z) :
  (length rdr = 0%nat /\ GoBinary.Read_uint64 rdr = Err EOF) \/
  ((0 < length rdr < 8)%nat /\ GoBinary.Read_uint64 rdr = Err ErrUnexpectedEOF) \/
  ((8 <= length rdr)%nat /\
   GoBinary.Read_uint64 rdr = Ok (GoBinary.Uint64 (firstn 8 rdr), skipn 8 rdr)).
Proof.
  unfold GoBinary.Read_uint64.
  destruct (Nat.lt_ge_cases (length rdr) 8) as [Hshort | Hlong].
  - rewrite ReadFull_short by exact Hshort.
    destruct rdr as [|b rdr]; [left; split; reflexivity|].
    right. left. split; [simpl in *; lia | reflexivity].
  - rewrite ReadFull_enough by exact Hlong.
    right. right. split; [exact Hlong | reflexivity].
Qed.

Lemma getix_loop_by_length (ids : list Z) (n : nat) :
  forall rdr ix,
    length rdr = n ->
    ((n mod 8 = 0)%nat ->
     exists mask, getix_loop ids rdr ix = Ok (ix ++ mask) /\
                  length mask = (n / 8)%nat) /\
    ((n mod 8 <> 0)%nat -> getix_loop ids rdr ix = Err ErrUnexpectedEOF).
Proof.
  induction n as [n IH] using lt_wf_ind. intros rdr ix Hlen.
  rewrite getix_loop_eq.
  destruct (Read_uint64_cases rdr) as [[H0 ->] | [[Hs ->] | [Hl ->]]].
  - split.
    + intros _. exists []. rewrite app_nil_r. split; [reflexivity|].
      rewrite <- Hlen, H0. reflexivity.
    + intros Hne. exfalso. apply Hne. rewrite <- Hlen, H0. reflexivity.
  - assert (n mod 8 = n)%nat by (apply Nat.mod_small; lia).
    split; [intros Hm; lia | reflexivity].
  - assert (Hrest : length (skipn 8 rdr) = (n - 8)%nat) by (rewrite length_skipn; lia).
    destruct (IH (n - 8)%nat ltac:(lia) (skipn 8 rdr)
                (ix ++ [contains ids (GoBinary.Uint64 (firstn 8 rdr))]) Hrest)
      as [IHok IHerr].
    assert (Hmod : (n mod 8 = (n - 8) mod 8)%nat).
    { replace n with ((n - 8) + 1 * 8)%nat at 1 by lia.
      apply Nat.Div0.mod_add. }
    assert (Hdiv : (n / 8 = S ((n - 8) / 8))%nat).
    { replace n with ((n - 8) + 1 * 8)%nat at 1 by lia.
      rewrite Nat.div_add by lia. lia. }
    split.
    + intros Hm. destruct IHok as (mask & -> & Hmask); [lia|].
      exists (contains ids (GoBinary.Uint64 (firstn 8 rdr)) :: mask).
      rewrite <- app_assoc. split; [reflexivity | cbn [length]; lia].
    + intros Hm. apply IHerr. lia.
Qed.

(** [getix] on any key column: a column of [8 * n] bytes gives a mask of
    [n] entries; a column whose length is not a multiple of 8 is a fatal
    [io.ErrUnexpectedEOF], never a shorter mask. *)
Theorem getix_length (ids : list Z) (idv : string) (src : bucket) (rdr : list Z) :
  src idv = Some rdr ->
  ((length rdr mod 8 = 0)%nat ->
   exists mask, getix ids idv src = Ok mask /\
                length mask = (length rdr / 8)%nat) /\
  ((length rdr mod 8 <> 0)%nat -> getix ids idv src = Err ErrUnexpectedEOF).
Proof.
  intros Hsrc. unfold getix, getreader. rewrite Hsrc. cbn [bind].
  destruct (getix_loop_by_length ids (length rdr) rdr [] eq_refl) as [Hok Herr].
  split; [|exact Herr].
  intros Hm. destruct (Hok Hm) as (mask & Hmask & Hlen).
  exists mask. split; [exact Hmask | exact Hlen].
Qed.

Lemma getix_length_witness :
  exists mask, getix [7] "id" varint_bucket_example = Ok mask /\
               length mask = 1%nat.
Proof.
  apply (getix_length [7] "id" varint_bucket_example (GoBinary.PutUint64 7));
    reflexivity.
Defined.

(** ** Membership, continued *)

(** [contains] never reports a value that is not in the array, sorted or
    not. *)
Theorem contains_no_false_positive (a : list Z) (v : Z) :
  contains a v = true -> In v a.
Proof.
  intros Hc. pose proof (contains_true_iff a v) as Hiff. cbv zeta in Hiff.
  apply Hiff in Hc. destruct Hc as [Hk Hv]. rewrite <- Hv.
  apply nth_In. exact Hk.
Qed.

Lemma contains_no_false_positive_witness : In 3 [5; 1; 3].
Proof.
  apply (contains_no_false_positive [5; 1; 3] 3). reflexivity.
Defined.

Lemma contains_sorted_In (a : list Z) (v : Z) :
  Sorted Z.le a -> (contains a v = true <-> In v a).
Proof.
  intros Hs. split.
  { intros Hc. pose proof (contains_true_iff a v) as Hiff. cbv zeta in Hiff.
    apply Hiff in Hc. destruct Hc as [Hk Hv]. rewrite <- Hv.
    apply nth_In. exact Hk. }
  intros Hin.
  pose proof (Sorted_le_nth a Hs) as Hmono.
  pose proof (contains_true_iff a v) as Hc. cbv zeta in Hc. rewrite Hc. clear Hc.
  set (f := fun i : nat => nth i a 0 >=? v).
  destruct (Search_loop_post f 0 (length a)) as (Hr & Hlo & Hhi); [lia|].
  fold (GoSort.Search (length a) f) in Hr, Hlo, Hhi.
  set (k := GoSort.Search (length a) f) in *.
  apply (In_nth _ _ 0) in Hin. destruct Hin as (m & Hm & Hv).
  assert (Hbelow : (0 < k)%nat -> nth (pred k) a 0 < v).
  { intros Hk. specialize (Hlo Hk). unfold f in Hlo.
    rewrite Z.geb_leb in Hlo. apply Z.leb_gt in Hlo. exact Hlo. }
  assert (Hk : (k < length a)%nat).
  { destruct (Nat.eq_dec k (length a)) as [Heq | Hne]; [|lia].
    assert (nth m a 0 <= nth (pred k) a 0) by (apply Hmono; lia).
    specialize (Hbelow ltac:(lia)). lia. }
  split; [exact Hk|].
  specialize (Hhi Hk). unfold f in Hhi. rewrite Z.geb_leb in Hhi.
  apply Z.leb_le in Hhi.
  destruct (Z.eq_dec (nth k a 0) v) as [Heq | Hne]; [exact Heq|].
  exfalso.
  destruct (Nat.lt_ge_cases m k) as [Hmk | Hkm].
  - assert (nth m a 0 <= nth (pred k) a 0) by (apply Hmono; lia).
    specialize (Hbelow ltac:(lia)). lia.
  - assert (nth k a 0 <= nth m a 0) by (apply Hmono; lia). lia.
Qed.

(** On sorted arrays [contains] depends on the set of elements only:
    repeated identifiers change nothing. *)
Theorem contains_set_determined (a b : list Z) (v : Z) :
  Sorted Z.le a -> Sorted Z.le b ->
  (forall x, In x a <-> In x b) ->
  contains a v = contains b v.
Proof.
  intros Ha Hb Hab.
  pose proof (contains_sorted_In a v Ha) as Hca.
  pose proof (contains_sorted_In b v Hb) as Hcb.
  destruct (contains a v) eqn:Ea, (contains b v) eqn:Eb; try reflexivity.
  - assert (In v b) by (apply Hab, Hca; reflexivity).
    symmetry. apply Hcb. assumption.
  - assert (In v a) by (apply Hab, Hcb; reflexivity).
    apply Hca. assumption.
Qed.

Lemma contains_set_determined_witness :
  contains [3; 7; 7; 9] 7 = contains [3; 7; 9] 7.
Proof.
  apply (contains_set_determined [3; 7; 7; 9] [3; 7; 9] 7).
  - repeat constructor; lia.
  - repeat constructor; lia.
  - intros x. simpl. tauto.
Defined.

(** ** The identifier loader, continued *)

Lemma getids_loop_ok_iff (lines : list string) :
  forall acc r,
    getids_loop lines acc = Ok r <->
    Forall (fun l => int64_literal l <> None) lines /\
    r = acc ++ map line_value lines.
Proof.
  induction lines as [|l lines IH]; intros acc r; cbn [getids_loop map].
  - rewrite app_nil_r. split.
    + intros H. injection H as <-. split; [constructor | reflexivity].
    + intros [_ ->]. reflexivity.
  - pose proof (Atoi_spec l) as Ha. unfold line_value at 1.
    destruct (int64_literal l) as [z|] eqn:Hl.
    + rewrite Ha. cbn [bind]. rewrite IH. rewrite <- app_assoc. cbn [app].
      split.
      * intros [Hall ->]. split; [constructor; [congruence | exact Hall] | reflexivity].
      * intros [Hall ->]. inversion Hall; subst. split; [assumption | reflexivity].
    + destruct Ha as (e & ->). cbn [bind]. split; [discriminate|].
      intros [Hall _]. inversion Hall; subst. congruence.
Qed.

Lemma sorted_perm_unique (l : list Z) :
  forall l', StronglySorted Z.le l -> StronglySorted Z.le l' ->
             Permutation l l' -> l = l'.
Proof.
  induction l as [|x l IH]; intros l' Hs Hs' Hp.
  - apply Permutation_nil in Hp. subst. reflexivity.
  - destruct l' as [|y l'].
    + apply Permutation_sym, Permutation_nil in Hp. discriminate.
    + inversion Hs as [|? ? Hsl Hx]; subst. inversion Hs' as [|? ? Hsl' Hy]; subst.
      rewrite Forall_forall in Hx, Hy.
      assert (Hxy : x = y).
      { assert (Hinx : In x (y :: l')) by (apply (Permutation_in _ Hp); left; reflexivity).
        assert (Hiny : In y (x :: l))
          by (apply (Permutation_in _ (Permutation_sym Hp)); left; reflexivity).
        destruct Hinx as [-> | Hinx]; [reflexivity|].
        destruct Hiny as [-> | Hiny]; [reflexivity|].
        specialize (Hx _ Hiny). specialize (Hy _ Hinx). lia. }
      subst y. f_equal. apply IH; try assumption.
      apply Permutation_cons_inv in Hp. exact Hp.
Qed.

Lemma Sort_permutation_eq (l l' : list Z) :
  Permutation l l' -> GoSort.Sort l = GoSort.Sort l'.
Proof.
  intros Hp. apply sorted_perm_unique.
  - apply Sorted_StronglySorted; [intros x y z; apply Z.le_trans | apply Sort_sorted].
  - apply Sorted_StronglySorted; [intros x y z; apply Z.le_trans | apply Sort_sorted].
  - rewrite (Sort_perm l), (Sort_perm l'). exact Hp.
Qed.

(** The order of the lines of the identifier file does not matter, and
    repeated identifiers are kept: a file with the same lines in another
    order loads to the same array, which has one element per line. *)
Theorem getids_order_irrelevant (lines lines' : list string) (ids : list Z) :
  Permutation lines lines' ->
  getids lines = Ok ids ->
  getids lines' = Ok ids /\ length ids = length lines.
Proof.
  intros Hp. unfold getids.
  destruct (getids_loop lines []) as [r | e] eqn:Hloop; [|discriminate].
  cbn [bind]. intros H. injection H as <-.
  apply getids_loop_ok_iff in Hloop. destruct Hloop as [Hall ->]. cbn [app].
  assert (Hloop' : getids_loop lines' [] = Ok ([] ++ map line_value lines')).
  { apply getids_loop_ok_iff. split; [|reflexivity].
    rewrite Forall_forall in *. intros l Hl. apply Hall.
    apply (Permutation_in _ (Permutation_sym Hp)). exact Hl. }
  rewrite Hloop'. cbn [bind app]. split.
  - f_equal. apply Sort_permutation_eq, Permutation_sym, Permutation_map. exact Hp.
  - rewrite (Permutation_length (Sort_perm _)). apply length_map.
Qed.

Lemma getids_order_irrelevant_witness :
  getids ["3"; "-1"; "7"; "3"]%string = Ok [3; 3; 7; 18446744073709551615] /\
  length [3; 3; 7; 18446744073709551615] = length ["7"; "3"; "3"; "-1"]%string.
Proof.
  apply (getids_order_irrelevant ["7"; "3"; "3"; "-1"]%string
           ["3"; "-1"; "7"; "3"]%string).
  - apply (Permutation_cons_app ["3"; "-1"]%string ["3"]%string "7"%string).
    cbn [app]. apply perm_skip. apply perm_swap.
  - reflexivity.
Defined.

(** Loading and looking up compose to membership: after [getids], a value
    is found by [contains] exactly when some line of the file is a literal
    that converts to it. *)
Theorem getids_contains (lines : list string) (ids : list Z) (v : Z) :
  getids lines = Ok ids ->
  (contains ids v = true <->
   exists l z, In l lines /\ int64_literal l = Some z /\ to_uint64 z = v).
Proof.
  unfold getids.
  destruct (getids_loop lines []) as [r | e] eqn:Hloop; [|discriminate].
  cbn [bind]. intros H. injection H as <-.
  apply getids_loop_ok_iff in Hloop. destruct Hloop as [Hall ->]. cbn [app].
  rewrite (contains_sorted_In _ v (Sort_sorted _)).
  rewrite Forall_forall in Hall.
  split.
  - intros Hin. apply (Permutation_in _ (Sort_perm _)) in Hin.
    apply in_map_iff in Hin. destruct Hin as (l & Hv & Hl).
    specialize (Hall l Hl). unfold line_value in Hv.
    destruct (int64_literal l) as [z|] eqn:Hz; [|congruence].
    exists l, z. auto.
  - intros (l & z & Hl & Hz & Hv).
    apply (Permutation_in _ (Permutation_sym (Sort_perm _))).
    apply in_map_iff. exists l. split; [|exact Hl].
    unfold line_value. rewrite Hz. exact Hv.
Qed.

Lemma getids_contains_witness :
  contains [3; 7; 18446744073709551615] 18446744073709551615 = true <->
  exists l z, In l ["7"; "-1"; "3"]%string /\ int64_literal l = Some z /\
              to_uint64 z = 18446744073709551615.
Proof.
  apply (getids_contains ["7"; "-1"; "3"]%string). reflexivity.
Defined.

(** ** The bucket worker *)

Lemma dofixedwidth_frame (src : bucket) (vn : string) (w : nat) (ix : list bool)
  (tgt : target) :
  dofixedwidth src vn w ix tgt =
  (tgt ++ fst (dofixedwidth src vn w ix []), snd (dofixedwidth src vn w ix [])).
Proof.
  unfold dofixedwidth. destruct (getreader src vn) as [rdr | e].
  - destruct (dofixedwidth_loop w rdr ix []) as [out r]. reflexivity.
  - cbn [fst snd]. rewrite app_nil_r. reflexivity.
Qed.

Lemma douvarint_frame (src : bucket) (vn : string) (ix : list bool) (tgt : target) :
  douvarint src vn ix tgt =
  (tgt ++ fst (douvarint src vn ix []), snd (douvarint src vn ix [])).
Proof.
  unfold douvarint. destruct (getreader src vn) as [rdr | e].
  - destruct (douvarint_loop rdr ix []) as [out r]. reflexivity.
  - cbn [fst snd]. rewrite app_nil_r. reflexivity.
Qed.

(** One turn of the loop of [dobucket], in terms of what the column does
    on its own. *)
Lemma dobucket_loop_cons (src : bucket) (ix : list bool) (col : string * string)
  (rest : list (string * string)) (tgt : target) :
  dobucket_loop src ix (col :: rest) tgt =
  match snd (column_result src ix col) with
  | Ok _ => dobucket_loop src ix rest (tgt ++ fst (column_result src ix col))
  | Err e => (tgt ++ fst (column_result src ix col), Err e)
  end.
Proof.
  destruct col as [vn dt]. unfold column_result. cbn [dobucket_loop].
  destruct (dt =? "uvarint")%string.
  - rewrite (douvarint_frame src vn ix tgt).
    destruct (douvarint src vn ix []) as [d [[] | e]]; reflexivity.
  - destruct (dt =? "varint")%string.
    + cbn [fst snd]. rewrite app_nil_r. reflexivity.
    + rewrite (dofixedwidth_frame src vn (DTsize dt) ix tgt).
      destruct (dofixedwidth src vn (DTsize dt) ix []) as [d [[] | e]]; reflexivity.
Qed.

Lemma dobucket_loop_ok_iff (src : bucket) (ix : list bool)
  (dtypes : list (string * string)) :
  forall tgt tgt',
    dobucket_loop src ix dtypes tgt = (tgt', Ok tt) <->
    Forall (fun c => snd (column_result src ix c) = Ok tt) dtypes /\
    tgt' = tgt ++ flat_map (fun c => fst (column_result src ix c)) dtypes.
Proof.
  induction dtypes as [|col dtypes IH]; intros tgt tgt'.
  - cbn [dobucket_loop flat_map]. rewrite app_nil_r. split.
    + intros H. injection H as <-. split; [constructor | reflexivity].
    + intros [_ ->]. reflexivity.
  - rewrite dobucket_loop_cons. cbn [flat_map].
    destruct (snd (column_result src ix col)) as [[] | e] eqn:Hcol.
    + rewrite IH, <- app_assoc. split.
      * intros [Hall ->]. split; [constructor; assumption | reflexivity].
      * intros [Hall ->]. inversion Hall; subst. split; [assumption | reflexivity].
    + split; [discriminate|].
      intros [Hall _]. inversion Hall; subst. congruence.
Qed.

Lemma dobucket_loop_extends (src : bucket) (ix : list bool)
  (dtypes : list (string * string)) :
  forall tgt, exists d, fst (dobucket_loop src ix dtypes tgt) = tgt ++ d.
Proof.
  induction dtypes as [|col dtypes IH]; intros tgt.
  - exists []. cbn. rewrite app_nil_r. reflexivity.
  - rewrite dobucket_loop_cons.
    destruct (snd (column_result src ix col)) as [[] | e].
    + destruct (IH (tgt ++ fst (column_result src ix col))) as (d & ->).
      rewrite <- app_assoc. eauto.
    + cbn [fst]. eauto.
Qed.

(** The type metadata is the first file [dobucket] writes, as it was
    read, whatever happens afterwards; files written are never taken
    back. *)
Theorem dobucket_dtypes_first (ids : list Z) (idv : string)
  (dtypes : list (string * string)) (src : bucket) :
  exists cols,
    fst (dobucket ids idv dtypes src) =
    ("dtypes.json"%string, DtypesFile dtypes) :: cols.
Proof.
  unfold dobucket, writedtypes. cbn [app].
  destruct (getix ids idv src) as [ix | e].
  - destruct (dobucket_loop_extends src ix dtypes
                [("dtypes.json"%string, DtypesFile dtypes)]) as (d & ->).
    exists d. reflexivity.
  - exists []. reflexivity.
Qed.

(** When [dobucket] returns normally, no column is declared [varint],
    every column has a file in the source, and the target holds the type
    metadata and exactly one file for each column, in the order the
    columns were visited. *)
Theorem dobucket_ok_shape (ids : list Z) (idv : string)
  (dtypes : list (string * string)) (src : bucket) (tgt : target) :
  dobucket ids idv dtypes src = (tgt, Ok tt) ->
  map fst tgt = "dtypes.json"%string :: map (fun c => column_path (fst c)) dtypes /\
  Forall (fun c => snd c <> "varint"%string /\ src (fst c) <> None) dtypes.
Proof.
  unfold dobucket. destruct (getix ids idv src) as [ix | e]; [|discriminate].
  intros Hloop. split.
  - rewrite (dobucket_loop_files _ _ _ _ _ Hloop). reflexivity.
  - apply dobucket_loop_ok_iff in Hloop. destruct Hloop as [Hall _].
    rewrite Forall_forall in *. intros [vn dt] Hin. specialize (Hall _ Hin).
    unfold column_result in Hall. cbn [dobucket_loop fst snd] in *.
    destruct (dt =? "uvarint")%string eqn:Hu.
    + apply String.eqb_eq in Hu. subst dt. split; [discriminate|].
      unfold douvarint, getreader in Hall.
      destruct (src vn); [discriminate | discriminate].
    + destruct (String.eqb_spec dt "varint") as [-> | Hv]; [discriminate|].
      split; [exact Hv|].
      unfold dofixedwidth, getreader in Hall.
      destruct (src vn); [discriminate | discriminate].
Qed.

Lemma dobucket_ok_shape_witness :
  map fst (fst (dobucket [3; 7; 9] "id" spec_example_dtypes spec_example_bucket)) =
    "dtypes.json"%string :: map (fun c => column_path (fst c)) spec_example_dtypes /\
  Forall (fun c => snd c <> "varint"%string /\ spec_example_bucket (fst c) <> None)
    spec_example_dtypes.
Proof.
  apply (dobucket_ok_shape [3; 7; 9] "id" spec_example_dtypes spec_example_bucket).
  reflexivity.
Defined.

(** The order in which the range over the [dtypes] map visits the columns
    does not matter to a run that returns normally: in any other order the
    run returns normally too, with the same column files. *)
Theorem dobucket_order_independent (ids : list Z) (idv : string)
  (d1 d2 : list (string * string)) (src : bucket) (t1 : target) :
  Permutation d1 d2 ->
  dobucket ids idv d1 src = (t1, Ok tt) ->
  exists cols1 cols2,
    t1 = ("dtypes.json"%string, DtypesFile d1) :: cols1 /\
    dobucket ids idv d2 src =
      (("dtypes.json"%string, DtypesFile d2) :: cols2, Ok tt) /\
    Permutation cols1 cols2.
Proof.
  intros Hp. unfold dobucket, writedtypes. cbn [app].
  destruct (getix ids idv src) as [ix | e]; [|discriminate].
  intros Hloop. apply dobucket_loop_ok_iff in Hloop. destruct Hloop as [Hall ->].
  exists (flat_map (fun c => fst (column_result src ix c)) d1),
         (flat_map (fun c => fst (column_result src ix c)) d2).
  split; [reflexivity|]. split.
  - apply dobucket_loop_ok_iff. split; [|reflexivity].
    rewrite Forall_forall in *. intros c Hc. apply Hall.
    apply (Permutation_in _ (Permutation_sym Hp)). exact Hc.
  - apply Permutation_flat_map. exact Hp.
Qed.

Lemma dobucket_order_independent_witness :
  exists cols1 cols2,
    fst (dobucket [3; 7; 9] "id" spec_example_dtypes spec_example_bucket) =
      ("dtypes.json"%string, DtypesFile spec_example_dtypes) :: cols1 /\
    dobucket [3; 7; 9] "id"
      [("x", "uint32"); ("id", "uint64"); ("u", "uvarint")]%string
      spec_example_bucket =
      (("dtypes.json"%string,
        DtypesFile [("x", "uint32"); ("id", "uint64"); ("u", "uvarint")]%string)
         :: cols2, Ok tt) /\
    Permutation cols1 cols2.
Proof.
  apply (dobucket_order_independent [3; 7; 9] "id" spec_example_dtypes
           [("x", "uint32"); ("id", "uint64"); ("u", "uvarint")]%string
           spec_example_bucket).
  - apply perm_swap.
  - reflexivity.
Defined.





Lemma getix_loop_no_ids (n : nat) :
  forall rdr ix mask,
    length rdr = n ->
    Forall (fun ii => ii = false) ix ->
    getix_loop [] rdr ix = Ok mask ->
    Forall (fun ii => ii = false) mask.
Proof.
  induction n as [n IH] using lt_wf_ind. intros rdr ix mask Hlen Hix.
  rewrite getix_loop_eq.
  destruct (Read_uint64_cases rdr) as [[H0 ->] | [[Hs ->] | [Hl ->]]].
  - intros H. injection H as <-. exact Hix.
  - discriminate.
  - apply (IH (n - 8)%nat); [lia | rewrite length_skipn; lia|].
    apply Forall_app. split; [exact Hix | repeat constructor].
Qed.

(** With an empty identifier set no row is selected: whatever the bucket
    holds and however the run ends, every column file [dobucket] leaves
    in the target is empty, next to the type metadata. *)
Theorem dobucket_no_ids (idv : string) (dtypes : list (string * string))
  (src : bucket) :
  Forall (fun f => snd f = DtypesFile dtypes \/ snd f = ColumnFile [])
    (fst (dobucket [] idv dtypes src)).
Proof.
  unfold dobucket, writedtypes. cbn [app].
  destruct (getix [] idv src) as [ix | e] eqn:Hix;
    [|constructor; [left; reflexivity | constructor]].
  assert (Hfalse : Forall (fun ii => ii = false) ix).
  { unfold getix, getreader in Hix. destruct (src idv) as [rdr|]; [|discriminate].
    cbn [bind] in Hix.
    apply (getix_loop_no_ids (length rdr) rdr [] ix eq_refl); [constructor | exact Hix]. }
  destruct (all_false_no_write ix Hfalse) as [Hfix Huv].
  assert (Hgen : forall tgt,
             Forall (fun f => snd f = DtypesFile dtypes \/ snd f = ColumnFile []) tgt ->
             Forall (fun f => snd f = DtypesFile dtypes \/ snd f = ColumnFile [])
               (fst (dobucket_loop src ix dtypes tgt))).
  { generalize dtypes at 3 as cols.
    induction cols as [|[vn dt] cols IH]; intros tgt Htgt; [exact Htgt|].
    cbn [dobucket_loop].
    destruct (dt =? "uvarint")%string.
    - unfold douvarint. destruct (getreader src vn) as [rdr | e]; [|exact Htgt].
      pose proof (Huv rdr []) as Hout.
      destruct (douvarint_loop rdr ix []) as [out r]. cbn [fst] in Hout. subst out.
      assert (Htgt' : Forall (fun f => snd f = DtypesFile dtypes \/ snd f = ColumnFile [])
                        (tgt ++ [(column_path vn, ColumnFile [])]))
        by (apply Forall_app; split; [exact Htgt | repeat constructor; right; reflexivity]).
      destruct r as [rest | e]; cbn [bind]; [apply IH; exact Htgt' | exact Htgt'].
    - destruct (dt =? "varint")%string; [exact Htgt|].
      unfold dofixedwidth. destruct (getreader src vn) as [rdr | e]; [|exact Htgt].
      pose proof (Hfix (DTsize dt) rdr []) as Hout.
      destruct (dofixedwidth_loop (DTsize dt) rdr ix []) as [out r].
      cbn [fst] in Hout. subst out.
      assert (Htgt' : Forall (fun f => snd f = DtypesFile dtypes \/ snd f = ColumnFile [])
                        (tgt ++ [(column_path vn, ColumnFile [])]))
        by (apply Forall_app; split; [exact Htgt | repeat constructor; right; reflexivity]).
      destruct r as [rest | e]; cbn [bind]; [apply IH; exact Htgt' | exact Htgt']. }
  apply Hgen. constructor; [left; reflexivity | constructor].
Qed.

(** ** The scheduler, continued *)

(** The run cannot deadlock: in every reachable state in which [main] is
    not past its second loop some thread can take a step (when the channel
    is full a running job can release it). *)
Theorem scheduler_progress (N : nat) (s : sched) :
  reachable N s -> pc s <> Done -> exists s', step N s s'.
Proof.
  intros Hreach Hpc.
  destruct (reachable_inv N s Hreach) as (Hsem & Hcap & Hrange & _).
  destruct s as [p c r f]. cbn [pc sem_len running finished] in *.
  assert (Hrel : c = concurrency -> (held p < concurrency)%nat ->
                 exists s', step N (mkSched p c r f) s').
  { intros Hc Hh. destruct r as [|b r]; [simpl in Hsem; lia|].
    destruct c as [|c]; [unfold concurrency in Hc; lia|].
    eexists. apply (step_release N p c [] b r f). }
  destruct p as [k | k | k |]; cbn [held pc_in_range] in *.
  - destruct (Nat.lt_ge_cases k N) as [Hk | Hk].
    + destruct (Nat.eq_dec c concurrency) as [Hc | Hc].
      * apply Hrel; [exact Hc | unfold concurrency; lia].
      * eexists. apply step_send; lia.
    + eexists. apply step_loop_exit. exact Hk.
  - eexists. apply step_launch.
  - destruct (Nat.eq_dec k concurrency) as [-> | Hk].
    + eexists. apply step_done.
    + destruct (Nat.eq_dec c concurrency) as [Hc | Hc].
      * apply Hrel; [exact Hc | lia].
      * eexists. apply step_drain; lia.
  - contradiction.
Qed.

Lemma scheduler_progress_witness :
  exists s', step 1 (mkSched (Launch 0) 1 [] []) s'.
Proof.
  apply (scheduler_progress 1 (mkSched (Launch 0) 1 [] [])).
  - eapply reach_step; [apply reach_init|].
    apply step_send; unfold concurrency; lia.
  - discriminate.
Defined.

Lemma sched_once_inv (N : nat) (s : sched) :
  reachable N s ->
  Permutation (running s ++ finished s) (seq 0 (launched N (pc s))).
Proof.
  induction 1 as [|s s' Hreach IH Hstep]; [reflexivity|].
  destruct (reachable_inv N s Hreach) as (_ & _ & Hrange & _).
  destruct Hstep; cbn [pc running finished launched pc_in_range] in *.
  - exact IH.
  - rewrite seq_S. cbn [app plus].
    apply Permutation_cons_app. rewrite app_nil_r. exact IH.
  - assert (k = N) by lia. subst k. exact IH.
  - rewrite <- app_assoc in IH. cbn [app] in IH.
    rewrite <- IH, <- app_assoc.
    apply Permutation_app_head. symmetry. apply Permutation_middle.
  - exact IH.
  - exact IH.
Qed.

(** Every bucket is processed exactly once: a bucket is never launched
    twice, and when [main] is past its second loop the finished jobs are
    the buckets [0 .. N-1], each once. *)
Theorem scheduler_exactly_once (N : nat) (s : sched) :
  reachable N s ->
  NoDup (running s ++ finished s) /\
  (forall b, In b (running s ++ finished s) -> (b < N)%nat) /\
  (pc s = Done -> Permutation (finished s) (seq 0 N)).
Proof.
  intros Hreach.
  pose proof (sched_once_inv N s Hreach) as Hperm.
  destruct (reachable_inv N s Hreach) as (Hsem & Hcap & Hrange & _).
  split; [|split].
  - apply (Permutation_NoDup (Permutation_sym Hperm)). apply seq_NoDup.
  - intros b Hb. apply (Permutation_in _ Hperm) in Hb. apply in_seq in Hb.
    destruct (pc s); cbn [launched pc_in_range] in *; lia.
  - intros Hdone. rewrite Hdone in *. cbn [launched held] in *.
    destruct (running s); [exact Hperm | simpl in Hsem; lia].
Qed.

Lemma scheduler_exactly_once_witness :
  NoDup (running (mkSched (Send 1) 1 [0%nat] []) ++
         finished (mkSched (Send 1) 1 [0%nat] [])) /\
  (forall b, In b (running (mkSched (Send 1) 1 [0%nat] []) ++
                   finished (mkSched (Send 1) 1 [0%nat] [])) -> (b < 1)%nat) /\
  (pc (mkSched (Send 1) 1 [0%nat] []) = Done ->
   Permutation (finished (mkSched (Send 1) 1 [0%nat] [])) (seq 0 1)).
Proof.
  apply (scheduler_exactly_once 1).
  eapply reach_step; [|apply step_launch].
  eapply reach_step; [apply reach_init|].
  apply step_send; unfold concurrency; lia.
Defined.

Lemma reachable_in_reachable (N n : nat) (s : sched) :
  reachable_in N n s -> reachable N s.
Proof.
  induction 1 as [|n s s' _ IH Hstep]; [apply reach_init|].
  exact (reach_step N s s' IH Hstep).
Qed.

(** Every run ends: each step uses up one unit of [sched_measure], so a
    state reached in [n] steps has [3 * N + 22 - n] of them left, no run
    has more than [3 * N + 22] steps, and [main] is past its second loop
    after exactly that many. *)
Theorem scheduler_terminates (N n : nat) (s : sched) :
  reachable_in N n s ->
  (n + sched_measure N s = 3 * N + 22)%nat /\
  (pc s = Done -> n = (3 * N + 22)%nat).
Proof.
  intros Hreach.
  assert (Hsum : (n + sched_measure N s = 3 * N + 22)%nat).
  { induction Hreach as [|n s s' Hreach IH Hstep].
    - unfold sched_measure, sched_init. cbn [pc running pc_measure length].
      unfold concurrency. lia.
    - destruct (reachable_inv N s (reachable_in_reachable N n s Hreach))
        as (_ & _ & Hrange & _).
      destruct Hstep; unfold sched_measure in *;
        cbn [pc running pc_measure pc_in_range length] in *;
        rewrite ?length_app in *; cbn [length] in *;
        unfold concurrency in *; lia. }
  split; [exact Hsum|].
  intros Hdone.
  pose proof (reachable_in_reachable N n s Hreach) as Hr.
  destruct (reachable_inv N s Hr) as (Hsem & Hcap & _ & _).
  unfold sched_measure in Hsum. rewrite Hdone in *.
  cbn [pc_measure held] in *. lia.
Qed.

Lemma scheduler_terminates_witness :
  (2 + sched_measure 1 (mkSched (Send 1) 1 [0%nat] []) = 3 * 1 + 22)%nat /\
  (pc (mkSched (Send 1) 1 [0%nat] []) = Done -> 2%nat = (3 * 1 + 22)%nat).
Proof.
  apply (scheduler_terminates 1 2).
  eapply reach_in_step; [|apply step_launch].
  eapply reach_in_step; [apply reach_in_init|].
  apply step_send; unfold concurrency; lia.
Defined.

(** ** Preflight, continued *)

(** [check] stops the run in exactly one case: overwriting is not
    allowed and [os.Stat] of the target does not fail with a not-exist
    error (the target exists, or cannot be examined).  With [-replace] it
    never stops the run, whatever the directories are. *)
Theorem check_exits_iff (fs : filesystem) (fl : flags) :
  (replace fl = false /\ fs (targetdir fl) <> inr NotExist ->
   check fs fl = ([Stdout (MsgUseReplace (targetdir fl))], Some 1)) /\
  (replace fl = true \/ fs (targetdir fl) = inr NotExist ->
   check fs fl = ([], None)).
Proof.
  unfold check, Stat. split.
  - intros [-> Hex].
    destruct (fs (targetdir fl)) as [id | [|]]; try reflexivity.
    contradiction.
  - intros Hor.
    destruct (fs (targetdir fl)) as [id | [|]] eqn:Ht;
      destruct (replace fl) eqn:Hr;
      destruct (fs (sourcedir fl)) as [id' | [|]];
      cbn; try reflexivity;
      destruct Hor as [Hor | Hor]; discriminate.
Qed.

(** ** Sl64 *)

Lemma length_list_set (a : list Z) :
  forall i x, length (list_set i x a) = length a.
Proof.
  induction a as [|y a IH]; intros i x; [reflexivity|].
  destruct i; cbn [list_set length]; [reflexivity | rewrite IH; reflexivity].
Qed.

Lemma nth_list_set_eq (a : list Z) :
  forall i x, (i < length a)%nat -> nth i (list_set i x a) 0 = x.
Proof.
  induction a as [|y a IH]; intros i x Hi; [simpl in Hi; lia|].
  destruct i; cbn [list_set nth]; [reflexivity|].
  apply IH. simpl in Hi. lia.
Qed.

Lemma nth_list_set_neq (a : list Z) :
  forall i k x, k <> i -> nth k (list_set i x a) 0 = nth k a 0.
Proof.
  induction a as [|y a IH]; intros i k x Hk; [reflexivity|].
  destruct i, k; cbn [list_set nth]; try reflexivity; try contradiction.
  apply IH. congruence.
Qed.

Lemma perm_list_set_head (a : list Z) :
  forall j y, (j < length a)%nat ->
              Permutation (nth j a 0 :: list_set j y a) (y :: a).
Proof.
  induction a as [|z a IH]; intros j y Hj; [simpl in Hj; lia|].
  destruct j; cbn [list_set nth].
  - apply perm_swap.
  - apply perm_trans with (z :: nth j a 0 :: list_set j y a); [apply perm_swap|].
    apply perm_trans with (z :: y :: a); [|apply perm_swap].
    apply perm_skip, IH. simpl in Hj. lia.
Qed.

Lemma swap_perm_lt (a : list Z) :
  forall i j, (i < j)%nat -> (j < length a)%nat ->
              Permutation (list_set j (nth i a 0) (list_set i (nth j a 0) a)) a.
Proof.
  induction a as [|y a IH]; intros i j Hij Hj; [simpl in Hj; lia|].
  destruct j as [|j]; [lia|]. simpl in Hj.
  destruct i as [|i]; cbn [list_set nth].
  - apply perm_list_set_head. lia.
  - apply perm_skip, IH; lia.
Qed.

Lemma list_set_comm (a : list Z) :
  forall i j x y, i <> j ->
                  list_set i x (list_set j y a) = list_set j y (list_set i x a).
Proof.
  induction a as [|z a IH]; intros i j x y Hij; [reflexivity|].
  destruct i, j; cbn [list_set]; try reflexivity; try contradiction.
  f_equal. apply IH. congruence.
Qed.

Lemma list_set_same (a : list Z) :
  forall i, list_set i (nth i a 0) a = a.
Proof.
  induction a as [|z a IH]; intros i; [reflexivity|].
  destruct i; cbn [list_set nth]; [reflexivity | rewrite IH; reflexivity].
Qed.

Lemma swap_perm (a : list Z) (i j : nat) :
  (i < length a)%nat -> (j < length a)%nat ->
  Permutation (list_set j (nth i a 0) (list_set i (nth j a 0) a)) a.
Proof.
  intros Hi Hj.
  destruct (Nat.lt_trichotomy i j) as [Hlt | [-> | Hgt]].
  - apply swap_perm_lt; assumption.
  - rewrite list_set_same, list_set_same. reflexivity.
  - rewrite list_set_comm by lia. apply swap_perm_lt; assumption.
Qed.

(** [Swap(i, j)] with both indices in range exchanges the two elements
    and touches nothing else: the slice stays a permutation of itself,
    [Less(i, j)] after the swap is [Less(j, i)] before it, and swapping
    again gives the slice back. *)
Theorem Sl64_Swap_exchanges (a : list Z) (i j : nat) :
  (i < Sl64_Len a)%nat -> (j < Sl64_Len a)%nat ->
  exists a',
    Sl64_Swap a i j = Ok a' /\
    Permutation a' a /\
    nth i a' 0 = nth j a 0 /\ nth j a' 0 = nth i a 0 /\
    (forall k, k <> i -> k <> j -> nth k a' 0 = nth k a 0) /\
    Sl64_Less a' i j = Sl64_Less a j i /\
    Sl64_Swap a' i j = Ok a.
Proof.
  unfold Sl64_Len. intros Hi Hj.
  set (a' := list_set j (nth i a 0) (list_set i (nth j a 0) a)).
  assert (Hlen : length a' = length a)
    by (unfold a'; rewrite !length_list_set; reflexivity).
  assert (Hnj : nth j a' 0 = nth i a 0).
  { unfold a'. apply nth_list_set_eq. rewrite length_list_set. exact Hj. }
  assert (Hni : nth i a' 0 = nth j a 0).
  { unfold a'. destruct (Nat.eq_dec i j) as [-> | Hne].
    - rewrite nth_list_set_eq by (rewrite length_list_set; exact Hj). reflexivity.
    - rewrite nth_list_set_neq by exact Hne. apply nth_list_set_eq. exact Hi. }
  assert (Hother : forall k, k <> i -> k <> j -> nth k a' 0 = nth k a 0).
  { intros k Hki Hkj. unfold a'. rewrite !nth_list_set_neq by assumption. reflexivity. }
  assert (Hrange : ((i <? length a)%nat && (j <? length a)%nat) = true).
  { apply andb_true_iff. split; apply Nat.ltb_lt; assumption. }
  exists a'. unfold Sl64_Swap, Sl64_Less. rewrite Hlen, Hrange.
  replace ((j <? length a)%nat && (i <? length a)%nat) with true
    by (symmetry; apply andb_true_iff; split; apply Nat.ltb_lt; assumption).
  split; [reflexivity|]. split; [apply swap_perm; assumption|].
  split; [exact Hni|]. split; [exact Hnj|]. split; [exact Hother|].
  split; [rewrite Hni, Hnj; reflexivity|].
  f_equal. rewrite Hni, Hnj.
  apply (nth_ext _ _ 0 0).
  - rewrite !length_list_set. exact Hlen.
  - intros k _.
    destruct (Nat.eq_dec k j) as [-> | Hkj].
    + apply nth_list_set_eq. rewrite length_list_set, Hlen. exact Hj.
    + rewrite nth_list_set_neq by exact Hkj.
      destruct (Nat.eq_dec k i) as [-> | Hki].
      * apply nth_list_set_eq. rewrite Hlen. exact Hi.
      * rewrite nth_list_set_neq by exact Hki. apply Hother; assumption.
Qed.

Lemma Sl64_Swap_exchanges_witness :
  exists a',
    Sl64_Swap [9; 3; 7] 0 1 = Ok a' /\
    Permutation a' [9; 3; 7] /\
    nth 0 a' 0 = nth 1 [9; 3; 7] 0 /\ nth 1 a' 0 = nth 0 [9; 3; 7] 0 /\
    (forall k, k <> 0%nat -> k <> 1%nat -> nth k a' 0 = nth k [9; 3; 7] 0) /\
    Sl64_Less a' 0 1 = Sl64_Less [9; 3; 7] 1 0 /\
    Sl64_Swap a' 0 1 = Ok [9; 3; 7].
Proof.
  apply (Sl64_Swap_exchanges [9; 3; 7] 0 1); unfold Sl64_Len; simpl; lia.
Defined.

(** ** The directory name of a bucket *)

Lemma string_length_append (s t : string) :
  String.length (s ++ t)%string = (String.length s + String.length t)%nat.
Proof.
  induction s as [|c s IH]; cbn [String.append String.length]; [reflexivity|].
  rewrite IH. reflexivity.
Qed.

Lemma length_zeros (n : nat) :
  String.length (string_of_list_ascii (repeat "0"%char n)) = n.
Proof.
  induction n as [|n IH]; cbn [repeat string_of_list_ascii String.length];
    [reflexivity | rewrite IH; reflexivity].
Qed.

Lemma of_name_zeros (n : nat) (s : string) :
  bucket_of_name (string_of_list_ascii (repeat "0"%char n) ++ s) = bucket_of_name s.
Proof.
  unfold bucket_of_name.
  induction n as [|n IH]; [reflexivity|].
  cbn [repeat string_of_list_ascii String.append
       DecimalString.NilEmpty.uint_of_string].
  rewrite <- IH.
  destruct (DecimalString.NilEmpty.uint_of_string
              (string_of_list_ascii (repeat "0"%char n) ++ s)) as [d|];
    reflexivity.
Qed.

Lemma bucket_of_Sprintf (k : nat) : bucket_of_name (Sprintf_04d k) = Some k.
Proof.
  unfold Sprintf_04d, zero_pad. rewrite of_name_zeros.
  unfold bucket_of_name. rewrite DecimalString.NilEmpty.usu.
  cbn [option_map]. rewrite DecimalNat.Unsigned.of_to. reflexivity.
Qed.

(** The directory name [config.BucketPath] formats for a bucket has at
    least four characters and reads back as the bucket number: two
    buckets never get the same name. *)
Theorem Sprintf_04d_injective (k k' : nat) :
  bucket_of_name (Sprintf_04d k) = Some k /\
  (4 <= String.length (Sprintf_04d k))%nat /\
  (Sprintf_04d k = Sprintf_04d k' -> k = k').
Proof.
  split; [apply bucket_of_Sprintf|]. split.
  - unfold Sprintf_04d, zero_pad. rewrite string_length_append, length_zeros. lia.
  - intros Heq. pose proof (bucket_of_Sprintf k) as Hk.
    rewrite Heq, bucket_of_Sprintf in Hk. congruence.
Qed.

Example Sprintf_04d_examples :
  Sprintf_04d 0 = "0000"%string /\ Sprintf_04d 7 = "0007"%string /\
  Sprintf_04d 123 = "0123"%string /\ Sprintf_04d (100 * 100) = "10000"%string.
Proof. repeat split. Qed.

(** ** config.RevCodes *)

Lemma RevCodes_fold_sound (codes : list (string * Z)) :
  forall (m : int_map) v k,
    fold_left (fun rcodes kv => int_map_set rcodes (snd kv) (fst kv)) codes m v
      = Some k ->
    In (k, v) codes \/ m v = Some k.
Proof.
  induction codes as [|[k0 v0] codes IH]; intros m v k Hm; [right; exact Hm|].
  cbn [fold_left fst snd] in Hm. apply IH in Hm. destruct Hm as [Hin | Hset].
  - left. right. exact Hin.
  - unfold int_map_set in Hset. destruct (Z.eqb_spec v v0) as [-> | Hne].
    + injection Hset as ->. left. left. reflexivity.
    + right. exact Hset.
Qed.

Lemma RevCodes_fold_keeps (codes : list (string * Z)) :
  forall (m : int_map) v k,
    m v = Some k -> ~ In v (map snd codes) ->
    fold_left (fun rcodes kv => int_map_set rcodes (snd kv) (fst kv)) codes m v
      = Some k.
Proof.
  induction codes as [|[k0 v0] codes IH]; intros m v k Hm Hnot; [exact Hm|].
  cbn [fold_left fst snd]. apply IH.
  - unfold int_map_set. destruct (Z.eqb_spec v v0) as [-> | Hne]; [|exact Hm].
    exfalso. apply Hnot. left. reflexivity.
  - intros Hin. apply Hnot. right. exact Hin.
Qed.

Lemma RevCodes_fold_complete (codes : list (string * Z)) :
  forall (m : int_map) k v,
    In (k, v) codes ->
    exists k',
      fold_left (fun rcodes kv => int_map_set rcodes (snd kv) (fst kv)) codes m v
        = Some k' /\ In (k', v) codes.
Proof.
  induction codes as [|[k0 v0] codes IH]; intros m k v Hin; [destruct Hin|].
  cbn [fold_left fst snd].
  destruct (in_dec Z.eq_dec v (map snd codes)) as [Hlater | Hnot].
  - apply in_map_iff in Hlater. destruct Hlater as ([k1 v1] & Hv & Hin1).
    cbn [snd] in Hv. subst v1.
    destruct (IH (int_map_set m v0 k0) k1 v Hin1) as (k' & Hk' & Hin').
    exists k'. split; [exact Hk' | right; exact Hin'].
  - destruct Hin as [Heq | Hin].
    + injection Heq as -> ->. exists k. split; [|left; reflexivity].
      apply RevCodes_fold_keeps; [|exact Hnot].
      unfold int_map_set. rewrite Z.eqb_refl. reflexivity.
    + exfalso. apply Hnot. apply in_map_iff. exists (k, v). auto.
Qed.

(** [RevCodes] returns only reversed entries of [codes] and misses no
    code: every code of [codes] is mapped to a label that has this code.
    When two labels share a code, the one the range visits last is kept. *)
Theorem RevCodes_sound_complete (codes : list (string * Z)) :
  (forall v k, RevCodes codes v = Some k -> In (k, v) codes) /\
  (forall k v, In (k, v) codes ->
               exists k', RevCodes codes v = Some k' /\ In (k', v) codes) /\
  (forall k v, RevCodes (codes ++ [(k, v)]) v = Some k).
Proof.
  unfold RevCodes. split; [|split].
  - intros v k Hm. apply RevCodes_fold_sound in Hm.
    destruct Hm as [Hin | Hempty]; [exact Hin | discriminate].
  - intros k v Hin. apply RevCodes_fold_complete with (k := k). exact Hin.
  - intros k v. rewrite fold_left_app. cbn [fold_left fst snd].
    unfold int_map_set. rewrite Z.eqb_refl. reflexivity.
Qed.

(** When no two labels share a code, [RevCodes] is the inverse of
    [codes], whatever the order of the range: it maps [v] to [k] exactly
    when [codes] maps [k] to [v]. *)
Theorem RevCodes_inverse (codes : list (string * Z)) (k : string) (v : Z) :
  NoDup (map snd codes) ->
  (RevCodes codes v = Some k <-> In (k, v) codes).
Proof.
  intros Hnd. split.
  - intros Hm. unfold RevCodes in Hm. apply RevCodes_fold_sound in Hm.
    destruct Hm as [Hin | Hempty]; [exact Hin | discriminate].
  - intros Hin.
    destruct (RevCodes_fold_complete codes int_map_empty k v Hin) as (k' & Hk' & Hin').
    unfold RevCodes. rewrite Hk'. f_equal.
    clear Hk'. induction codes as [|[k0 v0] codes IH]; [destruct Hin|].
    cbn [map snd] in Hnd. inversion Hnd as [|? ? Hnot Hnd']; subst.
    assert (Hsnd : forall k1, In (k1, v) codes -> In v (map snd codes))
      by (intros k1 H1; apply in_map_iff; exists (k1, v); auto).
    destruct Hin as [Heq | Hin], Hin' as [Heq' | Hin'].
    + congruence.
    + injection Heq as -> ->. exfalso. apply Hnot. eapply Hsnd. exact Hin'.
    + injection Heq' as -> ->. exfalso. apply Hnot. eapply Hsnd. exact Hin.
    + apply IH; assumption.
Qed.

Lemma RevCodes_inverse_witness :
  RevCodes [("no", 0); ("yes", 1)]%string 1 = Some "yes"%string <->
  In ("yes"%string, 1) [("no", 0); ("yes", 1)]%string.
Proof.
  apply (RevCodes_inverse [("no", 0); ("yes", 1)]%string "yes"%string 1).
  repeat constructor; simpl; intuition discriminate.
Defined.

(** ** The key column of the output *)




(** ** The identifier file *)

Lemma string_app_assoc (a b c : string) :
  ((a ++ b) ++ c)%string = (a ++ (b ++ c))%string.
Proof.
  induction a as [|x a IH]; cbn [String.append]; [reflexivity|].
  rewrite IH. reflexivity.
Qed.

Lemma string_app_nil_r (a : string) : (a ++ EmptyString)%string = a.
Proof.
  induction a as [|x a IH]; cbn [String.append]; [reflexivity|].
  rewrite IH. reflexivity.
Qed.

(** The scanner on the bytes of a line, up to the newline that ends it. *)
Lemma Scan_lines_line (l : string) :
  Forall (fun c => c <> GoBufio.newline) (list_ascii_of_string l) ->
  forall cur rest,
    GoBufio.Scan_lines (l ++ String GoBufio.newline rest) cur =
    if GoBufio.token_too_long (cur ++ l) then ([], Some ErrTooLong)
    else (GoBufio.dropCR (cur ++ l) :: fst (GoBufio.Scan_lines rest EmptyString),
          snd (GoBufio.Scan_lines rest EmptyString)).
Proof.
  induction l as [|c l IH]; intros Hnl cur rest.
  - cbn [String.append GoBufio.Scan_lines]. rewrite string_app_nil_r.
    rewrite Ascii.eqb_refl.
    destruct (GoBufio.token_too_long cur); [reflexivity|].
    destruct (GoBufio.Scan_lines rest EmptyString). reflexivity.
  - cbn [list_ascii_of_string] in Hnl. inversion Hnl as [|? ? Hc Hl]; subst.
    cbn [String.append GoBufio.Scan_lines].
    apply Ascii.eqb_neq in Hc. rewrite Hc.
    rewrite (IH Hl). rewrite string_app_assoc. reflexivity.
Qed.

(** The scanner on a last line that no newline ends. *)
Lemma Scan_lines_last (l : string) :
  Forall (fun c => c <> GoBufio.newline) (list_ascii_of_string l) ->
  forall cur,
    GoBufio.Scan_lines l cur =
    match (cur ++ l)%string with
    | EmptyString => ([], None)
    | String _ _ =>
        if GoBufio.token_too_long (cur ++ l) then ([], Some ErrTooLong)
        else ([GoBufio.dropCR (cur ++ l)], None)
    end.
Proof.
  induction l as [|c l IH]; intros Hnl cur.
  - cbn [GoBufio.Scan_lines]. rewrite string_app_nil_r. reflexivity.
  - cbn [list_ascii_of_string] in Hnl. inversion Hnl as [|? ? Hc Hl]; subst.
    cbn [GoBufio.Scan_lines].
    apply Ascii.eqb_neq in Hc. rewrite Hc.
    rewrite (IH Hl). rewrite string_app_assoc. reflexivity.
Qed.

(** A file of lines the scanner can deliver unchanged scans to these
    lines, without error. *)
Lemma Scan_file_of_lines (lines : list string) :
  Forall scannable_line lines ->
  GoBufio.Scan (file_of_lines lines) = (lines, None).
Proof.
  unfold GoBufio.Scan.
  induction 1 as [|l lines (Hnl & Hcr & Hlen) _ IH]; [reflexivity|].
  cbn [file_of_lines fold_right].
  rewrite (Scan_lines_line l Hnl). cbn [String.append].
  rewrite Hlen, Hcr. fold (file_of_lines lines). rewrite IH. reflexivity.
Qed.

(** On a file that scans cleanly [getids_scan] is [getids] on its lines;
    so it is on every file of lines the scanner can deliver unchanged. *)
Lemma getids_scan_clean (data : string) (lines : list string) :
  GoBufio.Scan data = (lines, None) ->
  getids_scan (Some (data, None)) = getids lines.
Proof.
  intros Hscan. unfold getids_scan, getids. rewrite Hscan.
  destruct (getids_loop lines []); reflexivity.
Qed.

Lemma getids_scan_file_of_lines (lines : list string) :
  Forall scannable_line lines ->
  getids_scan (Some (file_of_lines lines, None)) = getids lines.
Proof.
  intros Hl. apply getids_scan_clean, Scan_file_of_lines. exact Hl.
Qed.

(** A line of [bufio.MaxScanTokenSize] bytes or more is fatal, whatever
    it holds: [scanner.Err()] is [bufio.ErrTooLong] and [getids]
    panics. *)
Lemma getids_scan_long_line (l : string) (read_err : option error) :
  Forall (fun c => c <> GoBufio.newline) (list_ascii_of_string l) ->
  GoBufio.MaxScanTokenSize <= Z.of_nat (String.length l) ->
  getids_scan (Some (l, read_err)) = Err ErrTooLong /\
  getids_scan (Some ((l ++ String GoBufio.newline EmptyString)%string, read_err)) =
    Err ErrTooLong.
Proof.
  intros Hnl Hlen.
  assert (Hlong : GoBufio.token_too_long l = true)
    by (unfold GoBufio.token_too_long; apply Z.leb_le; exact Hlen).
  unfold getids_scan, GoBufio.Scan. split.
  - rewrite (Scan_lines_last l Hnl). cbn [String.append].
    destruct l as [|c l].
    + unfold GoBufio.MaxScanTokenSize in Hlen. simpl in Hlen. lia.
    + rewrite Hlong. reflexivity.
  - rewrite (Scan_lines_line l Hnl). cbn [String.append].
    rewrite Hlong. reflexivity.
Qed.

(** A read error of the identifier file is fatal when every line read
    before it parses; so is a missing file. *)
Lemma getids_scan_read_error (data : string) (e : error) :
  exists e', getids_scan (Some (data, Some e)) = Err e'.
Proof.
  unfold getids_scan. destruct (GoBufio.Scan data) as [lines scan_err].
  destruct (getids_loop lines []) as [ids | e0]; cbn [bind]; [|eauto].
  destruct scan_err; eauto.
Qed.

(** A result of [getids] is sorted ascending, whatever the file. *)
Lemma getids_scan_sorted (file : idfile_state) (ids : list Z) :
  getids_scan file = Ok ids -> Sorted Z.le ids.
Proof.
  unfold getids_scan. destruct file as [[data read_err]|]; [|discriminate].
  destruct (GoBufio.Scan data) as [lines scan_err].
  destruct (getids_loop lines []) as [ids0 | e]; cbn [bind]; [|discriminate].
  destruct scan_err; [discriminate|]. destruct read_err; [discriminate|].
  intros H. injection H as <-. apply Sort_sorted.
Qed.

(** A panic of [getids] ends [main] before [setupTargetDir()] and before
    any [dobucket] is launched. *)
Lemma main_select_getids_panics {A : Type} (idfile : idfile_state) (e : error)
  (partitions : list Z -> result A) :
  getids_scan idfile = Err e ->
  main_select (Ok tt) idfile partitions = Err e.
Proof. intros H. unfold main_select. rewrite H. reflexivity. Qed.

(** C4. The identifier loader does not accept every valid unsigned
    64-bit literal, and does not reject every line that is not an
    unsigned literal: it parses with [strconv.Atoi], a signed parse, and
    converts with [uint64(id)].  On the file with the lines [7] and
    [9223372036854775808] (that is [2^63], a valid unsigned 64-bit
    literal) [getids] panics with the range error of [strconv.Atoi], and
    [main] ends there, before any partition work.  On the file with the
    line [-1], which is not an unsigned literal, [getids] returns the
    identifier [2^64 - 1] and [main] goes on to the partitions with
    it. *)
Theorem getids_scan_signed_parse :
  (GoBufio.Scan idfile_uint64_example =
     (["7"; "9223372036854775808"]%string, None) /\
   uint64_literal "7" = true /\
   uint64_literal "9223372036854775808" = true /\
   getids_scan (Some (idfile_uint64_example, None)) = Err ErrRange /\
   forall (A : Type) (partitions : list Z -> result A),
     main_select (Ok tt) (Some (idfile_uint64_example, None)) partitions =
     Err ErrRange) /\
  (GoBufio.Scan idfile_negative_example = (["-1"]%string, None) /\
   unsigned_literal "-1" = false /\
   getids_scan (Some (idfile_negative_example, None)) =
     Ok [18446744073709551615] /\
   forall (A : Type) (partitions : list Z -> result A),
     main_select (Ok tt) (Some (idfile_negative_example, None)) partitions =
     partitions [18446744073709551615]).
Proof. repeat split. Qed.

(** ** The rows a column file holds *)

Lemma app_eq_length {A : Type} (r r' x y : list A) :
  length r = length r' -> r ++ x = r' ++ y -> r = r' /\ x = y.
Proof.
  revert r'. induction r as [|a r IH]; intros [|a' r'] Hlen Heq;
    try discriminate.
  - split; [reflexivity | exact Heq].
  - cbn [app] in Heq. injection Heq as -> Heq.
    destruct (IH r' ltac:(simpl in Hlen; lia) Heq) as [-> ->].
    split; reflexivity.
Qed.

(** The records a mask selects are fixed by the bytes of the column: two
    ways to cut the same bytes into records of width [w], each with a
    record for every mask entry, select the same bytes. *)
Lemma select_by_records_unique (w : nat) (ix : list bool) :
  forall (records records' : list (list Z)) (t t' : list Z),
    Forall (fun r => length r = w) records ->
    Forall (fun r => length r = w) records' ->
    (length ix <= length records)%nat ->
    (length ix <= length records')%nat ->
    concat records ++ t = concat records' ++ t' ->
    concat (select_by ix records) = concat (select_by ix records').
Proof.
  induction ix as [|ii ix IH]; intros records records' t t' Hr Hr' Hl Hl' Heq;
    [reflexivity|].
  destruct records as [|r records]; [simpl in Hl; lia|].
  destruct records' as [|r' records']; [simpl in Hl'; lia|].
  inversion Hr as [|? ? Hw Hrs]; subst. inversion Hr' as [|? ? Hw' Hrs']; subst.
  cbn [concat] in Heq. rewrite <- !app_assoc in Heq.
  destruct (app_eq_length r r' _ _ ltac:(congruence) Heq) as [-> Hrest].
  cbn [length] in Hl, Hl'.
  pose proof (IH records records' t t' Hrs Hrs' ltac:(lia) ltac:(lia) Hrest) as Hsel.
  destruct ii; cbn [select_by concat]; [rewrite Hsel; reflexivity | exact Hsel].
Qed.

(** [column_selected] fixes the file of a fixed-width column. *)
Lemma column_selected_fixed_unique (src : bucket) (ix : list bool)
  (col : string * string) (f f' : string * file) :
  snd col <> "uvarint"%string ->
  column_selected src ix col f ->
  column_selected src ix col f' ->
  f = f'.
Proof.
  intros Hu. apply String.eqb_neq in Hu.
  unfold column_selected. rewrite Hu.
  intros (Hname & records & t & Hsrc & Hr & Hl & Hf)
         (Hname' & records' & t' & Hsrc' & Hr' & Hl' & Hf').
  rewrite Hsrc in Hsrc'. injection Hsrc' as Heq.
  destruct f as [n c], f' as [n' c']. cbn [fst snd] in *. subst.
  f_equal. f_equal.
  exact (select_by_records_unique _ ix records records' t t' Hr Hr' Hl Hl' Heq).
Qed.

(** On the [uint32] column of the example bucket, with the mask of the
    identifiers 3, 7 and 9, one file only holds the selected rows: the
    records 20, 40 and 50.  An empty file and a file cut short do not. *)
Lemma column_selected_example_exact (out : list Z) :
  column_selected spec_example_bucket [false; true; false; true; true; false]
    ("x", "uint32")%string (column_path "x", ColumnFile out) <->
  out = [20; 0; 0; 0; 40; 0; 0; 0; 50; 0; 0; 0].
Proof.
  assert (Hgood :
    column_selected spec_example_bucket [false; true; false; true; true; false]
      ("x", "uint32")%string
      (column_path "x", ColumnFile [20; 0; 0; 0; 40; 0; 0; 0; 50; 0; 0; 0])).
  { split; [reflexivity|]. cbn [snd String.eqb Ascii.eqb Bool.eqb].
    exists [[10; 0; 0; 0]; [20; 0; 0; 0]; [30; 0; 0; 0];
            [40; 0; 0; 0]; [50; 0; 0; 0]; [60; 0; 0; 0]], [].
    split; [reflexivity|]. split; [repeat constructor|].
    split; [simpl; lia | reflexivity]. }
  split.
  - intros H.
    assert (Hu : snd ("x", "uint32")%string <> "uvarint"%string) by discriminate.
    pose proof (column_selected_fixed_unique _ _ _ _ _ Hu H Hgood) as Heq.
    injection Heq as ->. reflexivity.
  - intros ->. exact Hgood.
Qed.
